(** * Indentation-offset resolution engine of the ESLint [indent] rule

    A shallow embedding of the classes [BinarySearchTree], [TokenInfo] and
    [OffsetStorage] and of the reporting pass of
    [src/Eslint/Eslint-95/buggy/linter.js] (lines 1876-2227, 2475-2483 and
    3180-3217), with the properties of the specification stated over it.

    Conventions of the embedding:
    - token positions, tree keys, line and column numbers are JavaScript
      integers, modelled by [Z];
    - indent levels are JavaScript numbers, modelled by the exact rationals
      [Qc]: a level is a sum of offsets and of quotients by the indent size.
      Rounding of doubles, infinities and NaN (a quotient by an indent size
      of zero, an [undefined] offset) are outside the model; the properties
      that depend on a quotient say so;
    - [undefined] and [null] are modelled by [None];
    - a token is an immutable object; the [WeakMap]s and the [WeakSet] of the
      source are keyed by object identity, modelled by maps keyed by the
      token record, which carries an identity field;
    - [getDesiredIndent] is recursive and need not terminate: it takes the
      depth of recursion it may use, and answers [OutOfFuel] beyond it;
    - the map [firstTokensByLineNumber] is taken as the constructor of
      [TokenInfo] has built it. *)

From Stdlib Require Import QArith Qcanon Ascii String.
From stdpp Require Import gmap strings list sorting numbers.

Local Open Scope Z_scope.

(** ** Tokens and offset descriptors *)

(** [token.range[0]], [token.range[1]], [token.loc.start.line] and
    [token.loc.start.column] are the only fields the engine reads. *)
Record Token := mkToken {
  tok_id : positive;
  range_0 : Z;
  range_1 : Z;
  loc_start_line : Z;
  loc_start_column : Z
}.

#[global] Instance Token_eq_dec : EqDecision Token.
Proof. solve_decision. Defined.

#[global] Instance Token_countable : Countable Token.
Proof.
  refine (inj_countable'
    (fun t => (tok_id t, range_0 t, range_1 t, loc_start_line t, loc_start_column t))
    (fun p => match p with (i, a, b, l, c) => mkToken i a b l c end) _).
  by intros [].
Defined.

(** The object [{ offset, from, force }].  [force] is [undefined] when
    [setDesiredOffsets] is called with three arguments. *)
Record Descriptor := mkDescriptor {
  offset : Qc;
  from : option Token;
  force : option bool
}.

(** JavaScript truthiness of the [force] field. *)
Definition truthy (b : option bool) : bool :=
  match b with Some true => true | _ => false end.

(** ** The balanced search tree wrapper

    [functional-red-black-tree] is a library outside the repository; the tree
    is represented by its in-order sequence of [(key, value)] nodes.  A value
    is a descriptor or [undefined]. *)
Module BinarySearchTree.

Definition Tree := list (Z * option Descriptor).

(** [createTree()] *)
Definition empty : Tree := [].

Definition keys (t : Tree) : list Z := map fst t.

(** [_rbTree.find(key)]: the node with this key, if any. *)
Fixpoint lookup (key : Z) (t : Tree) : option (option Descriptor) :=
  match t with
  | [] => None
  | (k, v) :: r => if key =? k then Some v else lookup key r
  end.

(** [iterator.update(value)] on the iterator of [_rbTree.find(key)]: the
    tree with the value of that node replaced. *)
Fixpoint update (key : Z) (value : option Descriptor) (t : Tree) : Tree :=
  match t with
  | [] => []
  | (k, v) :: r => if key =? k then (key, value) :: r else (k, v) :: update key value r
  end.

(** [_rbTree.insert(key, value)]: a new node at its place in key order. *)
Fixpoint rb_insert (key : Z) (value : option Descriptor) (t : Tree) : Tree :=
  match t with
  | [] => [(key, value)]
  | (k, v) :: r => if key <? k then (key, value) :: t else (k, v) :: rb_insert key value r
  end.

(** [insert(key, value)] *)
Definition insert (key : Z) (value : option Descriptor) (t : Tree) : Tree :=
  match lookup key t with
  | Some _ => update key value t
  | None => rb_insert key value t
  end.

(** [findLe(key)]: the node that [_rbTree.le(key)] points to, the one with
    the largest key [<= key].  [None] stands for the entry
    [{ key: undefined, value: undefined }] that the source builds from an
    invalid iterator. *)
Fixpoint findLe (key : Z) (t : Tree) : option (Z * option Descriptor) :=
  match t with
  | [] => None
  | (k, v) :: r =>
      if k <=? key then
        match findLe key r with
        | Some e => Some e
        | None => Some (k, v)
        end
      else None
  end.

(** [.value] of the entry returned by [findLe]. *)
Definition value (e : option (Z * option Descriptor)) : option Descriptor :=
  match e with
  | Some (_, v) => v
  | None => None
  end.

(** [_rbTree.remove(key)] *)
Fixpoint remove (key : Z) (t : Tree) : Tree :=
  match t with
  | [] => []
  | (k, v) :: r => if key =? k then r else (k, v) :: remove key r
  end.

(** [_rbTree.ge(start)]: an iterator over the (persistent) tree, at the
    first node with key [>= start]; it is the sequence of nodes left to
    visit. *)
Fixpoint ge (start : Z) (t : Tree) : Tree :=
  match t with
  | [] => []
  | (k, v) :: r => if start <=? k then t else ge start r
  end.

(** The [while (iterator.valid && iterator.key < end)] loop. *)
Fixpoint deleteLoop (iterator : Tree) (end_ : Z) (t : Tree) : Tree :=
  match iterator with
  | [] => t
  | (k, _) :: next =>
      if k <? end_ then deleteLoop next end_ (remove k t) else t
  end.

Definition deleteRange (start end_ : Z) (t : Tree) : Tree :=
  if start =? end_ then t else deleteLoop (ge start t) end_ t.

(** Representation invariant of the tree: keys strictly increasing. *)
Definition sorted (t : Tree) : Prop := StronglySorted Z.lt (keys t).

End BinarySearchTree.

Module BST := BinarySearchTree.

(** ** Token information *)

(** [sourceCode.text] and the map [firstTokensByLineNumber] that the
    constructor of [TokenInfo] builds from the token stream. *)
Record TokenInfo := mkTokenInfo {
  text : string;
  firstTokensByLineNumber : gmap Z Token
}.

(** [String.prototype.slice(start, end)] on integer arguments. *)
Definition slice (s : string) (start end_ : Z) : string :=
  let len := Z.of_nat (String.length s) in
  let from_ := if start <? 0 then Z.max (len + start) 0 else Z.min start len in
  let to_ := if end_ <? 0 then Z.max (len + end_) 0 else Z.min end_ len in
  String.substring (Z.to_nat from_) (Z.to_nat (Z.max (to_ - from_) 0)) s.

Definition getFirstTokenOfLine (ti : TokenInfo) (token : Token) : option Token :=
  firstTokensByLineNumber ti !! loc_start_line token.

Definition isFirstTokenOfLine (ti : TokenInfo) (token : Token) : bool :=
  bool_decide (getFirstTokenOfLine ti token = Some token).

Definition getTokenIndent (ti : TokenInfo) (token : Token) : string :=
  slice (text ti) (range_0 token - loc_start_column token) (range_0 token).

(** ** Offset storage *)

Record OffsetStorage := mkOffsetStorage {
  _tokenInfo : TokenInfo;
  _indentSize : Z;
  _tree : BST.Tree;
  _lockedFirstTokens : gmap Token Token;
  _desiredIndentCache : gmap Token Qc;
  _ignoredTokens : gset Token
}.

Definition initialDescriptor : Descriptor :=
  {| offset := 0%Qc; from := None; force := Some false |}.

(** [new OffsetStorage(tokenInfo, indentSize)] *)
Definition newOffsetStorage (tokenInfo : TokenInfo) (indentSize : Z) : OffsetStorage :=
  {| _tokenInfo := tokenInfo;
     _indentSize := indentSize;
     _tree := BST.insert 0 (Some initialDescriptor) BST.empty;
     _lockedFirstTokens := ∅;
     _desiredIndentCache := ∅;
     _ignoredTokens := ∅ |}.

Definition with_tree (st : OffsetStorage) (t : BST.Tree) : OffsetStorage :=
  {| _tokenInfo := _tokenInfo st;
     _indentSize := _indentSize st;
     _tree := t;
     _lockedFirstTokens := _lockedFirstTokens st;
     _desiredIndentCache := _desiredIndentCache st;
     _ignoredTokens := _ignoredTokens st |}.

Definition with_cache (st : OffsetStorage) (c : gmap Token Qc) : OffsetStorage :=
  {| _tokenInfo := _tokenInfo st;
     _indentSize := _indentSize st;
     _tree := _tree st;
     _lockedFirstTokens := _lockedFirstTokens st;
     _desiredIndentCache := c;
     _ignoredTokens := _ignoredTokens st |}.

(** [_getOffsetDescriptor(token)]; [None] is [undefined]. *)
Definition _getOffsetDescriptor (st : OffsetStorage) (token : Token) : option Descriptor :=
  BST.value (BST.findLe (range_0 token) (_tree st)).

(** [fromToken && fromToken.range[0] >= range[0] && fromToken.range[1] <= range[1]] *)
Definition fromTokenIsInRange (range : Z * Z) (fromToken : option Token) : bool :=
  match fromToken with
  | None => false
  | Some f => (range.1 <=? range_0 f) && (range_1 f <=? range.2)
  end.

(** The effect of [setDesiredOffsets] on the tree, statement by statement. *)
Definition setDesiredOffsets_tree (t : BST.Tree) (range : Z * Z)
    (fromToken : option Token) (offset : Qc) (force : option bool) : BST.Tree :=
  let descriptorToInsert := {| offset := offset; from := fromToken; force := force |} in
  let descriptorAfterRange := BST.value (BST.findLe range.2 t) in
  let t1 := BST.deleteRange (range.1 + 1) range.2 t in
  let t2 := BST.insert range.1 (Some descriptorToInsert) t1 in
  let t3 :=
    match fromToken with
    | Some f =>
        if fromTokenIsInRange range fromToken then
          let fromTokenDescriptor := BST.value (BST.findLe (range_0 f) t) in
          BST.insert (range_1 f) (Some descriptorToInsert)
            (BST.insert (range_0 f) fromTokenDescriptor t2)
        else t2
    | None => t2
    end in
  BST.insert range.2 descriptorAfterRange t3.

Definition setDesiredOffsets (st : OffsetStorage) (range : Z * Z)
    (fromToken : option Token) (offset : Qc) (force : option bool) : OffsetStorage :=
  with_tree st (setDesiredOffsets_tree (_tree st) range fromToken offset force).

Definition setDesiredOffset (st : OffsetStorage) (token : Token)
    (fromToken : option Token) (offset : Qc) : OffsetStorage :=
  setDesiredOffsets st (range_0 token, range_1 token) fromToken offset None.

Definition matchIndentOf (st : OffsetStorage) (baseToken offsetToken : Token) : OffsetStorage :=
  setDesiredOffsets st (range_0 offsetToken, range_1 offsetToken) (Some baseToken) 0%Qc None.

Definition matchOffsetOf (st : OffsetStorage) (baseToken offsetToken : Token) : OffsetStorage :=
  {| _tokenInfo := _tokenInfo st;
     _indentSize := _indentSize st;
     _tree := _tree st;
     _lockedFirstTokens := <[offsetToken := baseToken]> (_lockedFirstTokens st);
     _desiredIndentCache := _desiredIndentCache st;
     _ignoredTokens := _ignoredTokens st |}.

Definition ignoreToken (st : OffsetStorage) (token : Token) : OffsetStorage :=
  if isFirstTokenOfLine (_tokenInfo st) token then
    {| _tokenInfo := _tokenInfo st;
       _indentSize := _indentSize st;
       _tree := _tree st;
       _lockedFirstTokens := _lockedFirstTokens st;
       _desiredIndentCache := _desiredIndentCache st;
       _ignoredTokens := {[ token ]} ∪ _ignoredTokens st |}
  else st.

(** Outcome of a query: the returned level and the storage with its updated
    cache, a [TypeError] (a property read on [undefined]), or no answer
    within the recursion depth [fuel]. *)
Inductive Result :=
  | Ok (v : Qc) (st : OffsetStorage)
  | TypeError
  | OutOfFuel.

(** [_desiredIndentCache.set(token, v); return _desiredIndentCache.get(token)] *)
Definition cache_and_return (st : OffsetStorage) (token : Token) (v : Qc) : Result :=
  Ok v (with_cache st (<[token := v]> (_desiredIndentCache st))).

(** The same-line collapse: the offset that a descriptor contributes to a
    token. *)
Definition collapsedOffset (offsetInfo : Descriptor) (token : Token) : Qc :=
  match from offsetInfo with
  | Some f =>
      if (loc_start_line f =? loc_start_line token) && negb (truthy (force offsetInfo))
      then 0%Qc else offset offsetInfo
  | None => offset offsetInfo
  end.

(** The body of [getDesiredIndent(token)]; [self] is the recursive call
    [this.getDesiredIndent]. *)
Definition getDesiredIndent_body (self : Token -> Result)
    (st : OffsetStorage) (token : Token) : Result :=
  match _desiredIndentCache st !! token with
  | Some v => Ok v st
  | None =>
      if bool_decide (token ∈ _ignoredTokens st) then
        cache_and_return st token
          (Qc_of_Z (Z.of_nat (String.length (getTokenIndent (_tokenInfo st) token)))
           / Qc_of_Z (_indentSize st))%Qc
      else
        match _lockedFirstTokens st !! token with
        | Some firstToken =>
            match getFirstTokenOfLine (_tokenInfo st) firstToken with
            | None => TypeError
            | Some lineToken =>
                match self lineToken with
                | Ok v st' =>
                    cache_and_return st' token
                      (v + Qc_of_Z (loc_start_column firstToken - loc_start_column lineToken)
                           / Qc_of_Z (_indentSize st))%Qc
                | TypeError => TypeError
                | OutOfFuel => OutOfFuel
                end
            end
        | None =>
            match _getOffsetDescriptor st token with
            | None => TypeError
            | Some offsetInfo =>
                match from offsetInfo with
                | Some f =>
                    match self f with
                    | Ok v st' =>
                        cache_and_return st' token (collapsedOffset offsetInfo token + v)%Qc
                    | TypeError => TypeError
                    | OutOfFuel => OutOfFuel
                    end
                | None =>
                    cache_and_return st token (collapsedOffset offsetInfo token + 0)%Qc
                end
            end
        end
  end.

(** [getDesiredIndent(token)].  [fuel] bounds the depth of the recursion:
    a call nested deeper than [fuel] gives no answer. *)
Fixpoint getDesiredIndent (fuel : nat) (st : OffsetStorage) (token : Token) : Result :=
  getDesiredIndent_body
    (fun u => match fuel with
              | O => OutOfFuel
              | S n => getDesiredIndent n st u
              end)
    st token.

(** ** Sequences of calls on one storage instance *)

Inductive Call :=
  | CallSetDesiredOffsets (range : Z * Z) (fromToken : option Token)
      (offset : Qc) (force : option bool)
  | CallSetDesiredOffset (token : Token) (fromToken : option Token) (offset : Qc)
  | CallMatchIndentOf (baseToken offsetToken : Token)
  | CallMatchOffsetOf (baseToken offsetToken : Token)
  | CallIgnoreToken (token : Token)
  | CallGetDesiredIndent (fuel : nat) (token : Token).

(** One call; [None] when a query does not return a value. *)
Definition call (st : OffsetStorage) (c : Call) : option OffsetStorage :=
  match c with
  | CallSetDesiredOffsets range fromToken offset force =>
      Some (setDesiredOffsets st range fromToken offset force)
  | CallSetDesiredOffset token fromToken offset =>
      Some (setDesiredOffset st token fromToken offset)
  | CallMatchIndentOf baseToken offsetToken => Some (matchIndentOf st baseToken offsetToken)
  | CallMatchOffsetOf baseToken offsetToken => Some (matchOffsetOf st baseToken offsetToken)
  | CallIgnoreToken token => Some (ignoreToken st token)
  | CallGetDesiredIndent fuel token =>
      match getDesiredIndent fuel st token with
      | Ok _ st' => Some st'
      | _ => None
      end
  end.

Fixpoint run (st : OffsetStorage) (calls : list Call) : option OffsetStorage :=
  match calls with
  | [] => Some st
  | c :: rest =>
      match call st c with
      | Some st' => run st' rest
      | None => None
      end
  end.

(** The range and the anchor that a call declares, if it is a declaration. *)
Definition declaration (c : Call) : option ((Z * Z) * option Token) :=
  match c with
  | CallSetDesiredOffsets range fromToken _ _ => Some (range, fromToken)
  | CallSetDesiredOffset token fromToken _ => Some ((range_0 token, range_1 token), fromToken)
  | CallMatchIndentOf baseToken offsetToken =>
      Some ((range_0 offsetToken, range_1 offsetToken), Some baseToken)
  | _ => None
  end.

(** ** Vocabulary of the properties *)

(** A range [[a, b]] has [a <= b]; a token occupies [[range_0, range_1]]. *)
Definition wf_range (range : Z * Z) : Prop := range.1 <= range.2.

Definition wf_anchor (fromToken : option Token) : Prop :=
  match fromToken with
  | Some f => range_0 f <= range_1 f
  | None => True
  end.

(** Position [p] lies in the half-open range [[a, b)]. *)
Definition in_range (range : Z * Z) (p : Z) : Prop := range.1 <= p < range.2.

(** The calls of a history declare well-formed ranges with well-formed
    anchors. *)
Definition wf_call (c : Call) : Prop :=
  match declaration c with
  | Some (range, fromToken) => wf_range range /\ wf_anchor fromToken
  | None => True
  end.

(** The ranges of the tiling property: [0 <= a <= b]. *)
Definition tiling_call (c : Call) : Prop :=
  match declaration c with
  | Some (range, _) => 0 <= range.1 <= range.2
  | None => True
  end.

(** No declaration of the call covers position [p]. *)
Definition not_covering (p : Z) (c : Call) : Prop :=
  match declaration c with
  | Some (range, _) => ~ in_range range p
  | None => True
  end.

(** What a query amounts to, without the storage. *)
Inductive Outcome :=
  | Returns (v : Qc)
  | Throws
  | Diverges.

Definition outcome (r : Result) : Outcome :=
  match r with
  | Ok v _ => Returns v
  | TypeError => Throws
  | OutOfFuel => Diverges
  end.

(** The token whose level [getDesiredIndent(token)] asks for recursively. *)
Definition dependency (st : OffsetStorage) (token : Token) : option Token :=
  match _desiredIndentCache st !! token with
  | Some _ => None
  | None =>
      if bool_decide (token ∈ _ignoredTokens st) then None
      else
        match _lockedFirstTokens st !! token with
        | Some firstToken => getFirstTokenOfLine (_tokenInfo st) firstToken
        | None =>
            match _getOffsetDescriptor st token with
            | Some offsetInfo => from offsetInfo
            | None => None
            end
        end
  end.

(** The [n]-th token on the dependency chain of [token]. *)
Fixpoint chain (st : OffsetStorage) (token : Token) (n : nat) : option Token :=
  match n with
  | O => Some token
  | S m =>
      match dependency st token with
      | Some u => chain st u m
      | None => None
      end
  end.

Definition never_revisits (st : OffsetStorage) (token : Token) : Prop :=
  forall i j u, (i < j)%nat -> chain st token i = Some u -> chain st token j <> Some u.

(** The chain of descriptors' from-tokens alone, whatever the cache, the
    ignore set and the alignment locks hold. *)
Definition anchorOf (st : OffsetStorage) (token : Token) : option Token :=
  match _getOffsetDescriptor st token with
  | Some offsetInfo => from offsetInfo
  | None => None
  end.

Fixpoint anchorChain (st : OffsetStorage) (token : Token) (n : nat) : option Token :=
  match n with
  | O => Some token
  | S m =>
      match anchorOf st token with
      | Some u => anchorChain st u m
      | None => None
      end
  end.

Definition anchors_never_revisit (st : OffsetStorage) (token : Token) : Prop :=
  forall i j u, (i < j)%nat ->
    anchorChain st token i = Some u -> anchorChain st token j <> Some u.

(** Every token that a query can recurse into: the from-tokens of the tree
    and the line-first tokens of the lock bases. *)
Definition dependencyTargets (st : OffsetStorage) : list Token :=
  omap (fun e : Z * option Descriptor => e.2 ≫= from) (_tree st)
  ++ omap (fun e : Token * Token => getFirstTokenOfLine (_tokenInfo st) e.2)
       (map_to_list (_lockedFirstTokens st)).

(** Tree invariant of the tiling property: keys strictly increasing, a
    breakpoint at key 0, and a descriptor on every breakpoint. *)
Definition tiling (t : BST.Tree) : Prop :=
  BST.sorted t /\
  (exists d, BST.lookup 0 t = Some (Some d)) /\
  (forall k v, BST.lookup k t = Some v -> is_Some v).

(** The node [e] is the one with the largest key [<= p]. *)
Definition governs (t : BST.Tree) (p : Z) (e : Z * option Descriptor) : Prop :=
  e ∈ t /\ e.1 <= p /\ forall k, k ∈ BST.keys t -> k <= p -> k <= e.1.

(** The two storages differ in their trees at most. *)
Definition same_but_tree (st1 st2 : OffsetStorage) : Prop :=
  _tokenInfo st1 = _tokenInfo st2 /\
  _indentSize st1 = _indentSize st2 /\
  _lockedFirstTokens st1 = _lockedFirstTokens st2 /\
  _desiredIndentCache st1 = _desiredIndentCache st2 /\
  _ignoredTokens st1 = _ignoredTokens st2.

(** ** The reporting pass *)

Inductive IndentType := Space | Tab.

Definition expectedChar (indentType : IndentType) : string :=
  match indentType with
  | Space => " "
  | Tab => String "009"%char ""
  end.

Fixpoint includes (s : string) (c : Ascii.ascii) : bool :=
  match s with
  | EmptyString => false
  | String c' r => if Ascii.eqb c c' then true else includes r c
  end.

Fixpoint repeat_string (s : string) (n : nat) : string :=
  match n with
  | O => ""
  | S m => s +:+ repeat_string s m
  end.

(** [String.prototype.repeat(count)]: the count is truncated toward zero and
    a negative count is a [RangeError] ([None]). *)
Definition js_repeat (s : string) (count : Qc) : option string :=
  let n := Z.quot (Qnum (this count)) (Z.pos (Qden (this count))) in
  if n <? 0 then None else Some (repeat_string s (Z.to_nat n)).

(** [validateTokenIndent(token, desiredIndentLevel)] *)
Definition validateTokenIndent (indentType : IndentType) (indentSize : Z)
    (tokenInfo : TokenInfo) (token : Token) (desiredIndentLevel : Qc) : option bool :=
  let indentation := getTokenIndent tokenInfo token in
  match js_repeat (expectedChar indentType) (desiredIndentLevel * Qc_of_Z indentSize)%Qc with
  | None => None
  | Some expected =>
      Some (bool_decide (indentation = expected)
            || (includes indentation " "%char && includes indentation "009"%char))
  end.

(** Outcome of the callback of [sourceCode.lines.forEach] for one line. *)
Inductive LineResult :=
  | LineOk (st : OffsetStorage)
  | LineReport (token : Token) (neededIndentLevel : Qc) (st : OffsetStorage)
  | LineThrows
  | LineDiverges.

Section Reporting.

(** The rule's configuration, and the helpers of [sourceCode] and
    [astUtils] that the callback uses, which live outside the file:
    [astUtils.isCommentToken], the map [precedingTokens],
    [sourceCode.getTokenAfter] and [sourceCode.ast.tokens[0]]. *)
Variable indentType : IndentType.
Variable isCommentToken : Token -> bool.
Variable precedingTokens : Token -> option Token.
Variable getTokenAfter : Token -> option Token.
Variable firstAstToken : option Token.

(** [validateTokenIndent(firstTokenOfLine, offsets.getDesiredIndent(token))] *)
Definition validateAgainst (fuel : nat) (st : OffsetStorage)
    (firstTokenOfLine token : Token) (k : bool -> OffsetStorage -> LineResult) : LineResult :=
  match getDesiredIndent fuel st token with
  | Ok v st' =>
      match validateTokenIndent indentType (_indentSize st) (_tokenInfo st) firstTokenOfLine v with
      | Some b => k b st'
      | None => LineThrows
      end
  | TypeError => LineThrows
  | OutOfFuel => LineDiverges
  end.

Definition reportToken (fuel : nat) (st : OffsetStorage) (token : Token) : LineResult :=
  match getDesiredIndent fuel st token with
  | Ok v st' => LineReport token v st'
  | TypeError => LineThrows
  | OutOfFuel => LineDiverges
  end.

Definition checkLine (fuel : nat) (st : OffsetStorage) (lineNumber : Z) : LineResult :=
  match firstTokensByLineNumber (_tokenInfo st) !! lineNumber with
  | None => LineOk st
  | Some firstTokenOfLine =>
      if negb (loc_start_line firstTokenOfLine =? lineNumber) then LineOk st
      else
        validateAgainst fuel st firstTokenOfLine firstTokenOfLine (fun valid st1 =>
          if valid then LineOk st1
          else if isCommentToken firstTokenOfLine then
            let tokenBefore := precedingTokens firstTokenOfLine in
            let tokenAfter :=
              match tokenBefore with
              | Some b => getTokenAfter b
              | None => firstAstToken
              end in
            let after_ (st2 : OffsetStorage) :=
              match tokenAfter with
              | Some a =>
                  validateAgainst fuel st2 firstTokenOfLine a (fun valid st3 =>
                    if valid then LineOk st3 else reportToken fuel st3 firstTokenOfLine)
              | None => reportToken fuel st2 firstTokenOfLine
              end in
            match tokenBefore with
            | Some b =>
                validateAgainst fuel st1 firstTokenOfLine b (fun valid st2 =>
                  if valid then LineOk st2 else after_ st2)
            | None => after_ st1
            end
          else reportToken fuel st1 firstTokenOfLine)
  end.

End Reporting.

(** [st'] is [st] with more answers in its cache. *)
Definition extends_cache (st st' : OffsetStorage) : Prop :=
  _tokenInfo st' = _tokenInfo st /\
  _indentSize st' = _indentSize st /\
  _tree st' = _tree st /\
  _lockedFirstTokens st' = _lockedFirstTokens st /\
  _ignoredTokens st' = _ignoredTokens st /\
  forall u x, _desiredIndentCache st !! u = Some x -> _desiredIndentCache st' !! u = Some x.

(** Both queries return the same value, in storages that differ in their
    trees at most, or both throw, or both give no answer. *)
Definition result_agree (r1 r2 : Result) : Prop :=
  match r1, r2 with
  | Ok v1 s1, Ok v2 s2 => v1 = v2 /\ same_but_tree s1 s2
  | TypeError, TypeError => True
  | OutOfFuel, OutOfFuel => True
  | _, _ => False
  end.

(** What every call preserves: the tree stays sorted, and the ignore set,
    the lock table and the cache only grow. *)
Definition grows (st st' : OffsetStorage) : Prop :=
  (BST.sorted (_tree st) -> BST.sorted (_tree st')) /\
  _ignoredTokens st ⊆ _ignoredTokens st' /\
  (forall u, _lockedFirstTokens st' !! u = None -> _lockedFirstTokens st !! u = None) /\
  (forall u x, _desiredIndentCache st !! u = Some x -> _desiredIndentCache st' !! u = Some x).

(** The cache holds nothing but 0 for [t]. *)
Definition cache_zero (t : Token) (st : OffsetStorage) : Prop :=
  forall x, _desiredIndentCache st !! t = Some x -> x = 0%Qc.



(** ** Example inputs *)

Module Examples.

(** The line [  a b] (two blanks, [a], blank, [b]), unit size 1; [a] is the
    first token of line 1. *)
Definition tokA : Token := mkToken 1 2 3 1 2.
Definition tokB : Token := mkToken 2 4 5 1 4.
Definition info : TokenInfo := mkTokenInfo "  a b" {[ 1 := tokA ]}.
Definition fresh : OffsetStorage := newOffsetStorage info 1.

(** [b] is the anchor of the range [[0, 4]], which holds [a]. *)
Definition declared (frc : option bool) : OffsetStorage :=
  setDesiredOffsets fresh (0, 4) (Some tokB) 1%Qc frc.

(** The same declaration after [ignoreToken(a)]. *)
Definition ignoredDeclared (frc : option bool) : OffsetStorage :=
  setDesiredOffsets (ignoreToken fresh tokA) (0, 4) (Some tokB) 1%Qc frc.

(** Two lines, [  a b] and [  c d]: [c] at [[8, 9]] is the first token of
    line 2 and [d] at [[10, 11]] follows it. *)
Definition tokC : Token := mkToken 12 8 9 2 2.
Definition tokD : Token := mkToken 13 10 11 2 4.
Definition infoTwo : TokenInfo :=
  mkTokenInfo ("  a b" +:+ String "010"%char "  c d") {[ 1 := tokA; 2 := tokC ]}.
Definition freshTwo : OffsetStorage := newOffsetStorage infoTwo 1.

(** [c] is aligned with the column of [b], then [d] is the anchor of the
    range [[6, 10]], which holds [c]. *)
Definition lockedDeclared (frc : option bool) : OffsetStorage :=
  setDesiredOffsets (matchOffsetOf freshTwo tokB tokC) (6, 10) (Some tokD) 1%Qc frc.

(** [c] is queried first; then [d] is offset by 1 from [a], and [d] is the
    anchor of the range [[6, 10]]. *)
Definition queried : OffsetStorage :=
  match getDesiredIndent 0 freshTwo tokC with
  | Ok _ st => st
  | _ => freshTwo
  end.
Definition cachedDeclared (frc : option bool) : OffsetStorage :=
  setDesiredOffsets (setDesiredOffset queried tokD (Some tokA) 1%Qc)
    (6, 10) (Some tokD) 1%Qc frc.

(** The line [ab cdefg]: the token [cdefg] at [[3, 8]] starts inside the
    range [[0, 5]] and ends after it. *)
Definition tokAb : Token := mkToken 3 0 2 1 0.
Definition straddling : Token := mkToken 4 3 8 1 3.
Definition infoS : TokenInfo := mkTokenInfo "ab cdefg" {[ 1 := tokAb ]}.
Definition freshS : OffsetStorage := newOffsetStorage infoS 4.

(** Two lines, [ x] and [ y]: [x] at [[1, 2]] and [y] at [[4, 5]]; [y] is
    offset by 1 from [x]. *)
Definition tokX : Token := mkToken 5 1 2 1 1.
Definition tokY : Token := mkToken 6 4 5 2 1.
Definition infoXY : TokenInfo :=
  mkTokenInfo (" x" +:+ String "010"%char " y") {[ 1 := tokX; 2 := tokY ]}.
Definition nested : OffsetStorage :=
  setDesiredOffset (newOffsetStorage infoXY 4) tokY (Some tokX) 1%Qc.

(** Two lines, [f a] and [b]: [f] at [[0, 1]] and [a] at [[2, 3]] on line 1,
    [b] at [[4, 5]] on line 2.  [f] is offset from [b], and [b] is aligned
    with the column of [a]. *)
Definition tokF : Token := mkToken 7 0 1 1 0.
Definition tokA1 : Token := mkToken 8 2 3 1 2.
Definition tokB2 : Token := mkToken 9 4 5 2 0.
Definition info2 : TokenInfo :=
  mkTokenInfo ("f a" +:+ String "010"%char "b") {[ 1 := tokF; 2 := tokB2 ]}.
Definition locked : OffsetStorage :=
  matchOffsetOf (setDesiredOffset (newOffsetStorage info2 4) tokF (Some tokB2) 1%Qc)
    tokA1 tokB2.

(** The source [var a], newline, tab, [= 1;] with the default options
    (four spaces): the token [=] opens line 2 behind one tab. *)
Definition tokVar : Token := mkToken 10 0 3 1 0.
Definition tokEq : Token := mkToken 11 7 8 2 1.
Definition info3 : TokenInfo :=
  mkTokenInfo ("var a" +:+ String "010"%char (String "009"%char "= 1;"))
    {[ 1 := tokVar; 2 := tokEq ]}.
Definition ignoredEq : OffsetStorage := ignoreToken (newOffsetStorage info3 4) tokEq.

End Examples.

(** ** More of the file: the rest of [OffsetStorage] and [TokenInfo], a
    listener of the rule, and helpers of the linter and of the key-spacing
    rule *)

(** [getFirstDependency(token)]: [_getOffsetDescriptor(token).from]; the
    outer [None] is the [TypeError] of reading [from] on [undefined]. *)
Definition getFirstDependency (st : OffsetStorage) (token : Token) : option (option Token) :=
  match _getOffsetDescriptor st token with
  | Some offsetInfo => Some (from offsetInfo)
  | None => None
  end.

(** A token of [sourceCode.tokensAndComments], with the end of its location,
    which the constructor of [TokenInfo] reads. *)
Record SourceToken := mkSourceToken {
  token_of : Token;
  loc_end_line : Z;
  loc_end_column : Z
}.

(** The white space that [String.prototype.trim] removes, among the
    characters below 256: tab, line feed, vertical tab, form feed, carriage
    return, space and no-break space. *)
Definition isWhiteSpace (c : Ascii.ascii) : bool :=
  let n := nat_of_ascii c in
  (Nat.leb 9 n && Nat.leb n 13) || Nat.eqb n 32 || Nat.eqb n 160.

(** Truthiness of [s.trim()]: some character of [s] is not white space. *)
Fixpoint trimIsTruthy (s : string) : bool :=
  match s with
  | EmptyString => false
  | String c r => negb (isWhiteSpace c) || trimIsTruthy r
  end.

(** The callback of the [reduce] in the constructor of [TokenInfo]. *)
Definition registerToken (tx : string) (map : gmap Z Token) (t : SourceToken) : gmap Z Token :=
  let map1 :=
    match map !! loc_start_line (token_of t) with
    | Some _ => map
    | None => <[loc_start_line (token_of t) := token_of t]> map
    end in
  match map1 !! loc_end_line t with
  | Some _ => map1
  | None =>
      if trimIsTruthy (slice tx (range_1 (token_of t) - loc_end_column t) (range_1 (token_of t)))
      then <[loc_end_line t := token_of t]> map1
      else map1
  end.

(** [new TokenInfo(sourceCode)] *)
Definition newTokenInfo (tx : string) (tokensAndComments : list SourceToken) : TokenInfo :=
  {| text := tx;
     firstTokensByLineNumber := fold_left (registerToken tx) tokensAndComments ∅ |}.

(** The listener [JSXExpressionContainer(node)] of the rule, on the tokens
    that [sourceCode.getFirstToken(node)] and [sourceCode.getLastToken(node)]
    give. *)
Definition JSXExpressionContainer (st : OffsetStorage)
    (openingCurly closingCurly : Token) : OffsetStorage :=
  matchIndentOf
    (setDesiredOffsets st (range_1 openingCurly, range_0 closingCurly)
       (Some openingCurly) 1%Qc None)
    openingCurly closingCurly.

Section ParenPairs.

(** [astUtils.isOpeningParenToken] and [astUtils.isClosingParenToken] live
    outside the file. *)
Variable isOpeningParenToken : Token -> bool.
Variable isClosingParenToken : Token -> bool.

(** The callback of [tokens.forEach] in [addParensIndent]: the state is the
    array [parenStack], its top first, and the array [parenPairs]; a pair
    holds [left], [undefined] when the stack was empty, and [right]. *)
Definition accumulateParen (state : list Token * list (option Token * Token))
    (nextToken : Token) : list Token * list (option Token * Token) :=
  if isOpeningParenToken nextToken then (nextToken :: state.1, state.2)
  else if isClosingParenToken nextToken then
    (tail state.1, (head state.1, nextToken) :: state.2)
  else state.

(** The list [parenPairs] that [addParensIndent(tokens)] accumulates. *)
Definition parenPairsOf (tokens : list Token) : list (option Token * Token) :=
  (fold_left accumulateParen tokens ([], [])).2.

(** The tokens on which the callback takes its second branch. *)
Definition closes (t : Token) : bool :=
  negb (isOpeningParenToken t) && isClosingParenToken t.

End ParenPairs.


(** The helpers of the key-spacing rule. *)
Module KeySpacing.

(** A comment and a property node, with the lines of their locations. *)
Record Comment := mkComment {
  comment_start_line : Z;
  comment_end_line : Z
}.

Record PropertyNode := mkPropertyNode {
  node_start_line : Z;
  leadingComments : option (list Comment)
}.

(** [last(arr)]: [arr[arr.length - 1]], [undefined] on an empty array. *)
Definition last {A} (arr : list A) : option A := arr !! (length arr - 1)%nat.

(** The [for] loop of [continuesPropertyGroup]: [previous] is
    [comments[i - 1]] and [rest] holds [comments[i]] onwards. *)
Fixpoint successiveCommentsAdjacent (previous : Comment) (rest : list Comment) : bool :=
  match rest with
  | [] => true
  | c :: r =>
      if comment_start_line c - comment_end_line previous >? 1 then false
      else successiveCommentsAdjacent c r
  end.

(** [continuesPropertyGroup(lastMember, candidate)]; [None] is the
    [TypeError] of reading [comments[0].loc] on an empty array. *)
Definition continuesPropertyGroup (lastMember candidate : PropertyNode) : option bool :=
  let groupEndLine := node_start_line lastMember in
  let candidateStartLine := node_start_line candidate in
  if candidateStartLine - groupEndLine <=? 1 then Some true
  else
    match leadingComments candidate with
    | None => Some false
    | Some comments =>
        match comments with
        | [] => None
        | c0 :: rest =>
            match last comments with
            | None => None
            | Some cl =>
                if (comment_start_line c0 - groupEndLine <=? 1)
                   && (candidateStartLine - comment_end_line cl <=? 1)
                then Some (successiveCommentsAdjacent c0 rest)
                else Some false
            end
        end
    end.

(** The callback of the [reduce] in [createGroups]; [None] is a
    [TypeError]. *)
Definition addToGroups (groups : list (list PropertyNode)) (property : PropertyNode)
    : option (list (list PropertyNode)) :=
  match last groups with
  | None => None
  | Some currentGroup =>
      let pushed := removelast groups ++ [currentGroup ++ [property]] in
      match last currentGroup with
      | None => Some pushed
      | Some prev =>
          match continuesPropertyGroup prev property with
          | None => None
          | Some true => Some pushed
          | Some false => Some (groups ++ [[property]])
          end
      end
  end.

(** [createGroups(node)] on [node.properties]. *)
Definition createGroups (properties : list PropertyNode) : option (list (list PropertyNode)) :=
  if (length properties =? 1)%nat then Some [properties]
  else
    fold_left (fun groups property => groups ≫= fun gs => addToGroups gs property)
      properties (Some [[]]).

(** The groups partition the properties seen so far, in order, and only
    the initial group is empty. *)
Definition groups_of (gs : list (list PropertyNode)) (ps : list PropertyNode) : Prop :=
  concat gs = ps /\ gs <> [] /\
  (ps = [] -> gs = [[]]) /\
  (ps <> [] -> Forall (fun g => g <> []) gs).

(** Each member of the group continues the one before it. *)
Fixpoint continues_all (g : list PropertyNode) : Prop :=
  match g with
  | a :: r =>
      match r with
      | b :: _ => continuesPropertyGroup a b = Some true
      | [] => True
      end /\ continues_all r
  | [] => True
  end.

(** The first member of each group after the first does not continue the
    last member of the group before it. *)
Fixpoint separated (gs : list (list PropertyNode)) : Prop :=
  match gs with
  | g :: r =>
      match r with
      | h :: _ =>
          forall a b, last g = Some a -> head h = Some b ->
            continuesPropertyGroup a b = Some false
      | [] => True
      end /\ separated r
  | [] => True
  end.

End KeySpacing.

(** Every answer in the cache of [st'] is one that a query on [st] gives. *)
Definition answers_of (st st' : OffsetStorage) : Prop :=
  extends_cache st st' /\
  forall u x, _desiredIndentCache st' !! u = Some x ->
    exists n s, getDesiredIndent n st u = Ok x s.

(** Example inputs for the listener and the constructor of [TokenInfo]. *)
Module MoreExamples.

(** The three lines [{], [  a] and [}]: the curlies at [[0, 1]] and
    [[6, 7]], and [a] at [[4, 5]] on line 2. *)
Definition tokOpen : Token := mkToken 20 0 1 1 0.
Definition tokInner : Token := mkToken 21 4 5 2 2.
Definition tokClose : Token := mkToken 22 6 7 3 0.
Definition infoJSX : TokenInfo :=
  mkTokenInfo ("{" +:+ String "010"%char ("  a" +:+ String "010"%char "}"))
    {[ 1 := tokOpen; 2 := tokInner; 3 := tokClose ]}.
Definition freshJSX : OffsetStorage := newOffsetStorage infoJSX 2.

(** The same tokens as [sourceCode.tokensAndComments] has them. *)
Definition srcOpen : SourceToken := mkSourceToken tokOpen 1 1.
Definition srcInner : SourceToken := mkSourceToken tokInner 2 3.
Definition srcClose : SourceToken := mkSourceToken tokClose 3 1.

End MoreExamples.

(** * Facts about the search tree *)

Ltac zcmp :=
  repeat match goal with
  | |- context [?a <? ?b] => destruct (Z.ltb_spec0 a b)
  | |- context [?a <=? ?b] => destruct (Z.leb_spec0 a b)
  | |- context [?a =? ?b] => destruct (Z.eqb_spec a b)
  | H : context [?a <? ?b] |- _ => destruct (Z.ltb_spec0 a b)
  | H : context [?a <=? ?b] |- _ => destruct (Z.leb_spec0 a b)
  | H : context [?a =? ?b] |- _ => destruct (Z.eqb_spec a b)
  end.

Section BSTFacts.

Import BinarySearchTree.

Implicit Types (t r : Tree) (k p : Z) (v : option Descriptor).

Lemma sorted_cons_inv k v r :
  sorted ((k, v) :: r) -> sorted r /\ Forall (Z.lt k) (keys r).
Proof. unfold sorted; simpl. intros H. inversion H; subst. auto. Qed.

Lemma sorted_cons k v r :
  sorted r -> Forall (Z.lt k) (keys r) -> sorted ((k, v) :: r).
Proof. unfold sorted; simpl. intros. by constructor. Qed.

Lemma lookup_None_keys k t : lookup k t = None <-> k ∉ keys t.
Proof.
  induction t as [|[k0 v0] r IH]; simpl.
  - split; [intros _; apply not_elem_of_nil | done].
  - rewrite not_elem_of_cons. zcmp; subst.
    + split; [done | intros [? _]; done].
    + rewrite IH. tauto.
Qed.

Lemma lookup_Some_keys k v t : lookup k t = Some v -> k ∈ keys t.
Proof.
  intros H. destruct (decide (k ∈ keys t)) as [|Hn]; [done|].
  apply lookup_None_keys in Hn. congruence.
Qed.

Lemma lookup_above k0 r k :
  Forall (Z.lt k0) (keys r) -> k <= k0 -> lookup k r = None.
Proof.
  intros Hall Hle. apply lookup_None_keys. intros Hin.
  rewrite list.Forall_forall in Hall. specialize (Hall _ Hin). lia.
Qed.

Lemma lookup_update k v t k' :
  lookup k' (update k v t)
  = if decide (k' = k) then (fun _ => v) <$> lookup k t else lookup k' t.
Proof.
  induction t as [|[k0 v0] r IH]; simpl.
  - by case_decide.
  - destruct (Z.eqb_spec k k0); simpl.
    + subst. case_decide; zcmp; congruence.
    + rewrite IH. case_decide; zcmp; congruence.
Qed.

Lemma lookup_rb_insert k v t k' :
  lookup k t = None ->
  lookup k' (rb_insert k v t) = if decide (k' = k) then Some v else lookup k' t.
Proof.
  induction t as [|[k0 v0] r IH]; simpl.
  - intros _. case_decide; zcmp; congruence.
  - destruct (Z.eqb_spec k k0); [done|]. intros Hr.
    destruct (Z.ltb_spec0 k k0); simpl.
    + case_decide; zcmp; congruence.
    + rewrite IH by done. case_decide; zcmp; congruence.
Qed.

Lemma lookup_tree_insert k v t k' :
  lookup k' (insert k v t) = if decide (k' = k) then Some v else lookup k' t.
Proof.
  unfold insert. destruct (lookup k t) eqn:E.
  - rewrite lookup_update, E. by case_decide.
  - by apply lookup_rb_insert.
Qed.

Lemma keys_insert k v t k' : k' ∈ keys (insert k v t) <-> k' = k \/ k' ∈ keys t.
Proof.
  destruct (decide (k' ∈ keys (insert k v t))) as [Hin|Hn].
  - split; [intros _|done].
    destruct (decide (k' = k)) as [|Hne]; [by left|right].
    destruct (decide (k' ∈ keys t)) as [|Hn]; [done|].
    apply lookup_None_keys in Hn.
    destruct (lookup k' (insert k v t)) eqn:E.
    + rewrite lookup_tree_insert in E. by case_decide; congruence.
    + apply lookup_None_keys in E. done.
  - split; [done|]. intros H. exfalso.
    apply lookup_None_keys in Hn. rewrite lookup_tree_insert in Hn.
    case_decide; [done|]. destruct H; [done|].
    by apply lookup_None_keys in Hn.
Qed.

Lemma keys_update k v t : keys (update k v t) = keys t.
Proof.
  induction t as [|[k0 v0] r IH]; simpl; [done|].
  destruct (Z.eqb_spec k k0); simpl; [by subst | by rewrite IH].
Qed.

Lemma keys_rb_insert k v t k' : k' ∈ keys (rb_insert k v t) -> k' = k \/ k' ∈ keys t.
Proof.
  induction t as [|[k0 v0] r IH]; simpl.
  - intros [->|[]%elem_of_nil]%elem_of_cons. by left.
  - destruct (Z.ltb_spec0 k k0); simpl; rewrite !elem_of_cons; [tauto|].
    intros [->|Hin]; [tauto|]. destruct (IH Hin); tauto.
Qed.

Lemma sorted_rb_insert k v t : sorted t -> lookup k t = None -> sorted (rb_insert k v t).
Proof.
  induction t as [|[k0 v0] r IH]; simpl; intros Hs Hk.
  - apply sorted_cons; constructor.
  - apply sorted_cons_inv in Hs as [Hr Hall].
    destruct (Z.eqb_spec k k0); [done|].
    destruct (Z.ltb_spec0 k k0).
    + apply sorted_cons; [by apply sorted_cons|].
      simpl. constructor; [done|].
      apply list.Forall_forall. intros x Hx.
      rewrite list.Forall_forall in Hall. specialize (Hall _ Hx). lia.
    + apply sorted_cons; [by apply IH|].
      apply list.Forall_forall. intros x Hx. apply keys_rb_insert in Hx as [->|Hx]; [lia|].
      rewrite list.Forall_forall in Hall. by apply Hall.
Qed.

Lemma sorted_insert k v t : sorted t -> sorted (insert k v t).
Proof.
  intros Hs. unfold insert. destruct (lookup k t) eqn:E.
  - unfold sorted. by rewrite keys_update.
  - by apply sorted_rb_insert.
Qed.

Lemma lookup_remove k t k' :
  sorted t ->
  lookup k' (remove k t) = if decide (k' = k) then None else lookup k' t.
Proof.
  induction t as [|[k0 v0] r IH]; simpl; intros Hs.
  - by case_decide.
  - apply sorted_cons_inv in Hs as [Hr Hall].
    destruct (Z.eqb_spec k k0); simpl.
    + subst. case_decide; zcmp; try congruence.
      subst. apply lookup_above with k0; [done | lia].
    + rewrite IH by done. case_decide; zcmp; congruence.
Qed.

Lemma keys_remove_incl k t k' : k' ∈ keys (remove k t) -> k' ∈ keys t.
Proof.
  induction t as [|[k0 v0] r IH]; simpl; [done|].
  zcmp; simpl; rewrite ?elem_of_cons; intuition.
Qed.

Lemma sorted_remove k t : sorted t -> sorted (remove k t).
Proof.
  induction t as [|[k0 v0] r IH]; simpl; intros Hs; [done|].
  apply sorted_cons_inv in Hs as [Hr Hall].
  zcmp; [done|].
  apply sorted_cons; [by apply IH|].
  apply list.Forall_forall. intros x Hx. apply keys_remove_incl in Hx.
  rewrite list.Forall_forall in Hall. by apply Hall.
Qed.

Lemma sorted_ge s t : sorted t -> sorted (ge s t).
Proof.
  induction t as [|[k0 v0] r IH]; simpl; intros Hs; [done|].
  zcmp; [done|]. apply sorted_cons_inv in Hs as [Hr _]. by apply IH.
Qed.

Lemma keys_ge s t k : sorted t -> k ∈ keys (ge s t) <-> k ∈ keys t /\ s <= k.
Proof.
  induction t as [|[k0 v0] r IH]; simpl; intros Hs.
  - rewrite elem_of_nil. tauto.
  - apply sorted_cons_inv in Hs as [Hr Hall]. rewrite list.Forall_forall in Hall.
    destruct (Z.leb_spec0 s k0); simpl.
    + rewrite elem_of_cons. split; [|tauto].
      intros [->|Hin]; [split; [by left | done]|].
      split; [by right|]. specialize (Hall _ Hin). lia.
    + rewrite IH by done. rewrite elem_of_cons. split; [tauto|].
      intros [[->|Hin] Hle]; [lia | done].
Qed.

Lemma lookup_deleteLoop it e t k :
  sorted it -> sorted t ->
  lookup k (deleteLoop it e t)
  = if decide (k ∈ keys it /\ k < e) then None else lookup k t.
Proof.
  revert t. induction it as [|[k0 v0] next IH]; cbn [deleteLoop]; intros t Hit Ht.
  - case_decide as H; [|done]. destruct H as [H _]. by apply elem_of_nil in H.
  - apply sorted_cons_inv in Hit as [Hnext Hall]. rewrite list.Forall_forall in Hall.
    change (keys ((k0, v0) :: next)) with (k0 :: keys next).
    destruct (Z.ltb_spec0 k0 e).
    + rewrite IH by auto using sorted_remove. rewrite lookup_remove by done.
      destruct (decide (k ∈ keys next /\ k < e)) as [[Hin He]|Hn].
      * rewrite decide_True; [done|]. split; [by apply elem_of_cons; right | done].
      * destruct (decide (k = k0)) as [->|Hne].
        -- rewrite decide_True; [done|]. split; [by apply elem_of_cons; left | lia].
        -- rewrite decide_False; [done|]. intros [Hin He].
           apply elem_of_cons in Hin as [|Hin]; [done|]. by apply Hn.
    + rewrite decide_False; [done|]. intros [H He].
      apply elem_of_cons in H as [->|H]; [lia|]. specialize (Hall _ H). lia.
Qed.

Lemma sorted_deleteLoop it e t : sorted t -> sorted (deleteLoop it e t).
Proof.
  revert t. induction it as [|[k0 v0] next IH]; simpl; intros t Ht; [done|].
  zcmp; [|done]. by apply IH, sorted_remove.
Qed.

Lemma lookup_deleteRange s e t k :
  sorted t ->
  lookup k (deleteRange s e t) = if decide (s <= k < e) then None else lookup k t.
Proof.
  intros Ht. unfold deleteRange. destruct (Z.eqb_spec s e).
  - case_decide; [lia | done].
  - rewrite lookup_deleteLoop by auto using sorted_ge.
    destruct (decide (s <= k < e)) as [Hin|Hout].
    + destruct (lookup k t) eqn:E.
      * rewrite decide_True; [done|]. split; [|lia].
        apply keys_ge; [done|]. split; [by eapply lookup_Some_keys | lia].
      * by case_decide.
    + rewrite decide_False; [done|]. intros [Hk He].
      apply keys_ge in Hk as [_ Hk]; [lia | done].
Qed.

Lemma sorted_deleteRange s e t : sorted t -> sorted (deleteRange s e t).
Proof.
  intros Ht. unfold deleteRange. zcmp; [done|]. by apply sorted_deleteLoop.
Qed.

(** The entry returned by [findLe], in terms of [lookup]. *)
Lemma findLe_None p t :
  sorted t -> findLe p t = None <-> forall k, k <= p -> lookup k t = None.
Proof.
  destruct t as [|[k0 v0] r]; simpl; intros Hs; [done|].
  apply sorted_cons_inv in Hs as [Hr Hall].
  destruct (Z.leb_spec0 k0 p).
  - split.
    + by destruct (findLe p r).
    + intros H. specialize (H k0 ltac:(lia)). by rewrite Z.eqb_refl in H.
  - split; [intros _|done]. intros k Hk. zcmp; [lia|].
    apply lookup_above with k0; [done | lia].
Qed.

Lemma findLe_Some p t k v :
  sorted t ->
  findLe p t = Some (k, v) <->
  lookup k t = Some v /\ k <= p /\ forall k', k < k' <= p -> lookup k' t = None.
Proof.
  revert k v. induction t as [|[k0 v0] r IH]; simpl; intros k v Hs.
  - split; [done | by intros [? _]].
  - apply sorted_cons_inv in Hs as [Hr Hall].
    pose proof (findLe_None p r Hr) as HN.
    rewrite list.Forall_forall in Hall.
    destruct (Z.leb_spec0 k0 p) as [Hle|Hgt].
    + destruct (findLe p r) as [[k1 v1]|] eqn:E.
      * destruct (proj1 (IH k1 v1 Hr) eq_refl) as (Hl1 & Hp1 & Hno1).
        pose proof (Hall _ (lookup_Some_keys _ _ _ Hl1)) as Hlt1.
        split.
        -- intros [= <- <-].
           destruct (Z.eqb_spec k1 k0); [lia|]. split; [done|]. split; [done|].
           intros k' Hk'. zcmp; [lia|]. by apply Hno1.
        -- intros (Hl & Hp & Hno). destruct (Z.eqb_spec k k0) as [->|Hne].
           ++ exfalso. specialize (Hno k1 ltac:(lia)).
              destruct (Z.eqb_spec k1 k0); [lia|]. congruence.
           ++ apply (IH k v Hr). split; [done|]. split; [done|].
              intros k' Hk'. specialize (Hno k' Hk').
              pose proof (Hall _ (lookup_Some_keys _ _ _ Hl)).
              destruct (Z.eqb_spec k' k0); [lia | done].
      * destruct HN as [HN _]. specialize (HN eq_refl). split.
        -- intros [= <- <-]. rewrite Z.eqb_refl. split; [done|]. split; [done|].
           intros k' Hk'. zcmp; [lia|]. apply HN. lia.
        -- intros (Hl & Hp & Hno). destruct (Z.eqb_spec k k0) as [->|Hne]; [congruence|].
           rewrite HN in Hl by done. done.
    + split; [done|]. intros (Hl & Hp & _). exfalso.
      destruct (Z.eqb_spec k k0); [lia|].
      pose proof (Hall _ (lookup_Some_keys _ _ _ Hl)). lia.
Qed.

(** Two sorted trees with the same nodes are the same tree. *)
Lemma tree_ext t1 t2 :
  sorted t1 -> sorted t2 -> (forall k, lookup k t1 = lookup k t2) -> t1 = t2.
Proof.
  revert t2. induction t1 as [|[k1 v1] r1 IH]; intros [|[k2 v2] r2] H1 H2 Hext.
  - done.
  - specialize (Hext k2). simpl in Hext. by rewrite Z.eqb_refl in Hext.
  - specialize (Hext k1). simpl in Hext. by rewrite Z.eqb_refl in Hext.
  - apply sorted_cons_inv in H1 as [Hr1 Hall1]. apply sorted_cons_inv in H2 as [Hr2 Hall2].
    assert (k1 = k2) as ->.
    { pose proof (Hext k1) as Ha. pose proof (Hext k2) as Hb. simpl in Ha, Hb.
      rewrite Z.eqb_refl in Ha, Hb.
      destruct (Z.eqb_spec k1 k2); [done|]. destruct (Z.eqb_spec k2 k1); [lia|].
      symmetry in Ha. apply lookup_Some_keys in Ha, Hb.
      rewrite list.Forall_forall in Hall1, Hall2.
      specialize (Hall1 _ Hb). specialize (Hall2 _ Ha). lia. }
    pose proof (Hext k2) as Hv. simpl in Hv. rewrite Z.eqb_refl in Hv.
    injection Hv as ->. f_equal. apply IH; [done..|].
    intros k. specialize (Hext k). simpl in Hext.
    destruct (Z.eqb_spec k k2) as [Heq|]; [|done].
    rewrite (lookup_above k2 r1), (lookup_above k2 r2) by (done || lia). done.
Qed.

End BSTFacts.

(** * Facts about [setDesiredOffsets] on the tree *)

Section DeclarationFacts.

Import BinarySearchTree.

Implicit Types (t : Tree) (k p a b : Z) (v : option Descriptor).

Lemma value_findLe_key k v t : sorted t -> lookup k t = Some v -> value (findLe k t) = v.
Proof.
  intros Hs Hl. assert (findLe k t = Some (k, v)) as ->; [|done].
  apply findLe_Some; [done|]. split; [done|]. split; [lia|]. intros; lia.
Qed.

(** [findLe p] reads the nodes with key [<= p] only. *)
Lemma findLe_ext_below p t1 t2 :
  sorted t1 -> sorted t2 ->
  (forall k, k <= p -> lookup k t1 = lookup k t2) -> findLe p t1 = findLe p t2.
Proof.
  intros H1 H2 Hext. destruct (findLe p t1) as [[k v]|] eqn:E; symmetry.
  - apply findLe_Some in E as (Hl & Hp & Hno); [|done].
    apply findLe_Some; [done|]. split; [by rewrite <- Hext|]. split; [done|].
    intros k' Hk'. rewrite <- Hext by lia. by apply Hno.
  - apply findLe_None; [done|]. intros k Hk. rewrite <- Hext by done.
    by apply (proj1 (findLe_None p t1 H1) E).
Qed.

(** Without a node in [(q, p]] the positions [q] and [p] have the same
    floor. *)
Lemma findLe_no_key_between q p t :
  sorted t -> q <= p -> (forall k, q < k <= p -> lookup k t = None) ->
  findLe p t = findLe q t.
Proof.
  intros Hs Hqp Hno. destruct (findLe q t) as [[k v]|] eqn:E.
  - apply findLe_Some in E as (Hl & Hq & Hno'); [|done].
    apply findLe_Some; [done|]. split; [done|]. split; [lia|].
    intros k' Hk'. destruct (decide (k' <= q)); [apply Hno' | apply Hno]; lia.
  - apply findLe_None; [done|]. intros k Hk.
    destruct (decide (k <= q)); [|apply Hno; lia].
    by apply (proj1 (findLe_None q t Hs) E).
Qed.

Lemma sorted_setDesiredOffsets_tree t range fromToken off frc :
  sorted t -> sorted (setDesiredOffsets_tree t range fromToken off frc).
Proof.
  intros Hs. unfold setDesiredOffsets_tree. cbv zeta.
  destruct fromToken as [f|]; [destruct (fromTokenIsInRange _ _)|];
    repeat apply sorted_insert; by apply sorted_deleteRange.
Qed.

Lemma fromTokenIsInRange_Some range f :
  fromTokenIsInRange range (Some f) = true <-> range.1 <= range_0 f /\ range_1 f <= range.2.
Proof. unfold fromTokenIsInRange. rewrite andb_true_iff, !Z.leb_le. done. Qed.

Lemma fromTokenIsInRange_Some_false range f :
  fromTokenIsInRange range (Some f) = false <-> ~ (range.1 <= range_0 f /\ range_1 f <= range.2).
Proof. rewrite <- fromTokenIsInRange_Some. by destruct (fromTokenIsInRange _ _). Qed.

(** The nodes of the tree after a declaration. *)
Lemma lookup_setDesiredOffsets_tree t range fromToken off frc k :
  sorted t ->
  lookup k (setDesiredOffsets_tree t range fromToken off frc) =
    let new := Some {| offset := off; from := fromToken; force := frc |} in
    if decide (k = range.2) then Some (value (findLe range.2 t))
    else
      match fromToken with
      | Some f =>
          if decide (fromTokenIsInRange range fromToken = true /\ k = range_1 f) then Some new
          else if decide (fromTokenIsInRange range fromToken = true /\ k = range_0 f)
            then Some (value (findLe (range_0 f) t))
          else if decide (k = range.1) then Some new
          else if decide (range.1 + 1 <= k < range.2) then None
          else lookup k t
      | None =>
          if decide (k = range.1) then Some new
          else if decide (range.1 + 1 <= k < range.2) then None
          else lookup k t
      end.
Proof.
  intros Hs. unfold setDesiredOffsets_tree. cbv zeta.
  rewrite lookup_tree_insert. case_decide; [done|].
  destruct fromToken as [f|].
  - destruct (fromTokenIsInRange range (Some f)) eqn:E.
    + rewrite !lookup_tree_insert, lookup_deleteRange by done.
      repeat case_decide; try done; exfalso; intuition congruence.
    + rewrite !lookup_tree_insert, lookup_deleteRange by done.
      repeat case_decide; try done; exfalso; intuition congruence.
  - rewrite !lookup_tree_insert, lookup_deleteRange by done. done.
Qed.

Lemma lookup_end_setDesiredOffsets_tree t range fromToken off frc :
  lookup range.2 (setDesiredOffsets_tree t range fromToken off frc)
  = Some (value (findLe range.2 t)).
Proof. unfold setDesiredOffsets_tree. cbv zeta. rewrite lookup_tree_insert. by case_decide. Qed.

(** Frame above the range. *)
Lemma findLe_above_setDesiredOffsets_tree t range fromToken off frc p :
  sorted t -> range.1 <= range.2 -> range.2 <= p ->
  value (findLe p (setDesiredOffsets_tree t range fromToken off frc)) = value (findLe p t).
Proof.
  intros Hs Hab Hp.
  pose proof (sorted_setDesiredOffsets_tree t range fromToken off frc Hs) as Hs'.
  pose proof (lookup_end_setDesiredOffsets_tree t range fromToken off frc) as Hend.
  assert (Habove : forall k, range.2 < k ->
    lookup k (setDesiredOffsets_tree t range fromToken off frc) = lookup k t \/
    (lookup k (setDesiredOffsets_tree t range fromToken off frc)
       = Some (value (findLe k t)))).
  { intros k Hk. rewrite lookup_setDesiredOffsets_tree by done. cbv zeta.
    case_decide; [lia|]. destruct fromToken as [f|].
    - case_decide as H1.
      { destruct H1 as [H1 ->]. apply fromTokenIsInRange_Some in H1. lia. }
      case_decide as H2; [destruct H2 as [_ ->]; by right|].
      repeat case_decide; try lia. by left.
    - repeat case_decide; try lia. by left. }
  set (t' := setDesiredOffsets_tree t range fromToken off frc) in *.
  destruct (findLe p t') as [[k v]|] eqn:E.
  - apply findLe_Some in E as (Hl & Hkp & Hno); [|done].
    assert (range.2 <= k) as Hbk.
    { destruct (decide (range.2 <= k)); [done|].
      rewrite Hno in Hend by lia. done. }
    assert (forall k', k < k' <= p -> lookup k' t = None) as Hno_t.
    { intros k' Hk'. specialize (Hno k' Hk').
      destruct (Habove k' ltac:(lia)) as [<-|Hx]; [done | congruence]. }
    rewrite (findLe_no_key_between k p t) by done.
    destruct (decide (k = range.2)) as [->|Hne].
    + simpl. congruence.
    + destruct (Habove k ltac:(lia)) as [Hx|Hx].
      * simpl. symmetry. apply value_findLe_key; [done | congruence].
      * simpl. congruence.
  - exfalso. pose proof (proj1 (findLe_None p t' Hs') E range.2 Hp). congruence.
Qed.

(** Frame below the range. *)
Lemma findLe_below_setDesiredOffsets_tree t range fromToken off frc p :
  sorted t -> range.1 <= range.2 -> wf_anchor fromToken -> p < range.1 ->
  findLe p (setDesiredOffsets_tree t range fromToken off frc) = findLe p t.
Proof.
  intros Hs Hab Hwf Hp.
  apply findLe_ext_below; [by apply sorted_setDesiredOffsets_tree | done |].
  intros k Hk. rewrite lookup_setDesiredOffsets_tree by done. cbv zeta.
  case_decide; [lia|]. destruct fromToken as [f|]; simpl in Hwf.
  - case_decide as H1.
    { destruct H1 as [H1 ->]. apply fromTokenIsInRange_Some in H1. lia. }
    case_decide as H2.
    { destruct H2 as [H2 ->]. apply fromTokenIsInRange_Some in H2. lia. }
    repeat case_decide; try lia. done.
  - repeat case_decide; try lia. done.
Qed.

(** A position that the range does not cover keeps its descriptor. *)
Lemma findLe_outside_setDesiredOffsets_tree t range fromToken off frc p :
  sorted t -> wf_range range -> wf_anchor fromToken -> ~ in_range range p ->
  value (findLe p (setDesiredOffsets_tree t range fromToken off frc)) = value (findLe p t).
Proof.
  unfold wf_range, in_range. intros Hs Hab Hwf Hout.
  destruct (decide (p < range.1)).
  - by rewrite findLe_below_setDesiredOffsets_tree.
  - apply findLe_above_setDesiredOffsets_tree; [done..|lia].
Qed.

(** The anchor inside the range keeps its own node. *)
Lemma lookup_anchor_setDesiredOffsets_tree t range f off frc :
  sorted t ->
  range.1 <= range_0 f -> range_0 f < range_1 f -> range_1 f <= range.2 ->
  lookup (range_0 f) (setDesiredOffsets_tree t range (Some f) off frc)
  = Some (value (findLe (range_0 f) t)).
Proof.
  intros Hs H0 H1 H2. rewrite lookup_setDesiredOffsets_tree by done. cbv zeta.
  assert (fromTokenIsInRange range (Some f) = true) as Hin
    by (apply fromTokenIsInRange_Some; lia).
  case_decide; [lia|].
  case_decide as Ha; [destruct Ha; lia|].
  case_decide as Hb; [done|]. exfalso. by apply Hb.
Qed.

(** A position of the range outside the span of an anchor that lies in
    the range is governed by the new descriptor. *)
Lemma findLe_inside_setDesiredOffsets_tree t range fromToken off frc p :
  sorted t -> in_range range p ->
  match fromToken with
  | Some f =>
      fromTokenIsInRange range fromToken = true ->
      range_0 f < range_1 f /\ ~ (range_0 f <= p < range_1 f)
  | None => True
  end ->
  value (findLe p (setDesiredOffsets_tree t range fromToken off frc))
  = Some {| offset := off; from := fromToken; force := frc |}.
Proof.
  unfold in_range. intros Hs Hp Hanchor.
  pose proof (sorted_setDesiredOffsets_tree t range fromToken off frc Hs) as Hs'.
  assert (exists k, k <= p /\
            lookup k (setDesiredOffsets_tree t range fromToken off frc)
            = Some (Some {| offset := off; from := fromToken; force := frc |}) /\
            forall k', k < k' <= p ->
              lookup k' (setDesiredOffsets_tree t range fromToken off frc) = None)
    as (k & Hk & Hl & Hno).
  { destruct fromToken as [f|]; [destruct (fromTokenIsInRange range (Some f)) eqn:Hin|].
    - destruct (Hanchor eq_refl) as [Hwf Hout].
      apply fromTokenIsInRange_Some in Hin.
      exists (if decide (range_1 f <= p) then range_1 f else range.1).
      case_decide.
      + split; [done|]. split.
        * rewrite lookup_setDesiredOffsets_tree by done. cbv zeta.
          case_decide; [lia|]. rewrite decide_True; [done|].
          split; [by apply fromTokenIsInRange_Some | done].
        * intros k' Hk'. rewrite lookup_setDesiredOffsets_tree by done. cbv zeta.
          case_decide; [lia|]. case_decide as H1; [destruct H1; lia|].
          case_decide as H2; [destruct H2; lia|].
          case_decide; [lia|]. case_decide; [done | lia].
      + split; [lia|]. split.
        * rewrite lookup_setDesiredOffsets_tree by done. cbv zeta.
          case_decide; [lia|]. case_decide as H1; [destruct H1; lia|].
          case_decide as H2; [destruct H2; lia|].
          by case_decide.
        * intros k' Hk'. rewrite lookup_setDesiredOffsets_tree by done. cbv zeta.
          case_decide; [lia|]. case_decide as H1; [destruct H1; lia|].
          case_decide as H2; [destruct H2; lia|].
          case_decide; [lia|]. case_decide; [done | lia].
    - exists range.1. split; [lia|]. split.
      + rewrite lookup_setDesiredOffsets_tree by done. cbv zeta.
        case_decide; [lia|]. case_decide as H1; [destruct H1; congruence|].
        case_decide as H2; [destruct H2; congruence|].
        by case_decide.
      + intros k' Hk'. rewrite lookup_setDesiredOffsets_tree by done. cbv zeta.
        case_decide; [lia|]. case_decide as H1; [destruct H1; congruence|].
        case_decide as H2; [destruct H2; congruence|].
        case_decide; [lia|]. case_decide; [done | lia].
    - exists range.1. split; [lia|]. split.
      + rewrite lookup_setDesiredOffsets_tree by done. cbv zeta.
        case_decide; [lia|]. by case_decide.
      + intros k' Hk'. rewrite lookup_setDesiredOffsets_tree by done. cbv zeta.
        case_decide; [lia|]. case_decide; [lia|]. case_decide; [done | lia]. }
  assert (findLe p (setDesiredOffsets_tree t range fromToken off frc)
          = Some (k, Some {| offset := off; from := fromToken; force := frc |})) as ->; [|done].
  by apply findLe_Some.
Qed.

(** Declaring the same offsets twice builds the same tree as once. *)
Lemma setDesiredOffsets_tree_idem t range fromToken off frc :
  sorted t ->
  setDesiredOffsets_tree (setDesiredOffsets_tree t range fromToken off frc)
    range fromToken off frc
  = setDesiredOffsets_tree t range fromToken off frc.
Proof.
  intros Hs.
  pose proof (sorted_setDesiredOffsets_tree t range fromToken off frc Hs) as Hs'.
  apply tree_ext; [by apply sorted_setDesiredOffsets_tree | done |].
  intros k.
  rewrite (lookup_setDesiredOffsets_tree (setDesiredOffsets_tree t range fromToken off frc))
    by done.
  cbv zeta.
  rewrite (value_findLe_key range.2 _ _ Hs'
             (lookup_end_setDesiredOffsets_tree t range fromToken off frc)).
  destruct fromToken as [f|].
  - assert (Hfd : fromTokenIsInRange range (Some f) = true ->
              range_0 f <> range_1 f -> range_0 f <> range.2 ->
              value (findLe (range_0 f) (setDesiredOffsets_tree t range (Some f) off frc))
              = value (findLe (range_0 f) t)).
    { intros Hin Hne1 Hne2. apply value_findLe_key; [done|].
      rewrite lookup_setDesiredOffsets_tree by done. cbv zeta.
      case_decide; [done|]. case_decide as Ha; [destruct Ha; done|].
      case_decide as Hb; [done|]. exfalso. by apply Hb. }
    revert Hfd.
    generalize (value (findLe (range_0 f) (setDesiredOffsets_tree t range (Some f) off frc))).
    intros fd' Hfd.
    rewrite lookup_setDesiredOffsets_tree by done. cbv zeta.
    destruct (fromTokenIsInRange range (Some f)) eqn:Hin.
    + repeat case_decide; try done; try lia;
        try (exfalso; intuition (congruence || lia));
        f_equal; apply Hfd; intuition (congruence || lia).
    + repeat case_decide; try done; try lia; exfalso; intuition (congruence || lia).
  - rewrite lookup_setDesiredOffsets_tree by done. cbv zeta.
    repeat case_decide; try done; try lia.
Qed.

End DeclarationFacts.

(** * Facts about [getDesiredIndent] *)

Section QueryFacts.

Implicit Types (st : OffsetStorage) (t u : Token) (v : Qc) (self : Token -> Result).

Lemma getDesiredIndent_unfold fuel st t :
  getDesiredIndent fuel st t
  = getDesiredIndent_body
      (fun u => match fuel with O => OutOfFuel | S n => getDesiredIndent n st u end) st t.
Proof. by destruct fuel. Qed.

(** A query that returns leaves its answer in the cache. *)
Lemma getDesiredIndent_body_cached self st t v st' :
  getDesiredIndent_body self st t = Ok v st' -> _desiredIndentCache st' !! t = Some v.
Proof.
  unfold getDesiredIndent_body, cache_and_return. intros H.
  repeat case_match; simplify_eq; simpl; by rewrite ?lookup_insert_eq.
Qed.

Lemma getDesiredIndent_cached fuel st t v st' :
  getDesiredIndent fuel st t = Ok v st' -> _desiredIndentCache st' !! t = Some v.
Proof. rewrite getDesiredIndent_unfold. apply getDesiredIndent_body_cached. Qed.

Lemma getDesiredIndent_hit fuel st t v :
  _desiredIndentCache st !! t = Some v -> getDesiredIndent fuel st t = Ok v st.
Proof.
  intros H. rewrite getDesiredIndent_unfold. unfold getDesiredIndent_body. by rewrite H.
Qed.

Lemma extends_cache_refl st : extends_cache st st.
Proof. by repeat split. Qed.

Lemma extends_cache_insert st st' t v :
  extends_cache st st' -> _desiredIndentCache st !! t = None ->
  extends_cache st (with_cache st' (<[t := v]> (_desiredIndentCache st'))).
Proof.
  intros (? & ? & ? & ? & ? & Hsub) Hmiss. repeat split; simpl; try done.
  intros u x Hu. destruct (decide (u = t)) as [->|Hne]; [congruence|].
  rewrite lookup_insert_ne by done. by apply Hsub.
Qed.

Lemma getDesiredIndent_body_extends self st t v st' :
  (forall u v' s', self u = Ok v' s' -> extends_cache st s') ->
  getDesiredIndent_body self st t = Ok v st' -> extends_cache st st'.
Proof.
  unfold getDesiredIndent_body, cache_and_return. intros Hself H.
  repeat case_match; simplify_eq;
    eauto using extends_cache_refl, extends_cache_insert.
Qed.

Lemma getDesiredIndent_extends fuel st t v st' :
  getDesiredIndent fuel st t = Ok v st' -> extends_cache st st'.
Proof.
  revert t v st'. induction fuel as [|n IH]; intros t v st';
    rewrite getDesiredIndent_unfold; apply getDesiredIndent_body_extends; [done | eauto].
Qed.

(** One step of the recursion through the governing descriptor. *)
Lemma getDesiredIndent_descriptor_step n st t d f :
  _desiredIndentCache st !! t = None -> t ∉ _ignoredTokens st ->
  _lockedFirstTokens st !! t = None ->
  _getOffsetDescriptor st t = Some d -> from d = Some f ->
  getDesiredIndent (S n) st t =
    match getDesiredIndent n st f with
    | Ok v st' => cache_and_return st' t (collapsedOffset d t + v)%Qc
    | TypeError => TypeError
    | OutOfFuel => OutOfFuel
    end.
Proof.
  intros Hc Hi Hl Hd Hf. rewrite getDesiredIndent_unfold. unfold getDesiredIndent_body.
  by rewrite Hc, bool_decide_eq_false_2, Hl, Hd, Hf.
Qed.

(** One step of the recursion through an alignment lock. *)
Lemma getDesiredIndent_locked_step n st t firstToken lineToken :
  _desiredIndentCache st !! t = None -> t ∉ _ignoredTokens st ->
  _lockedFirstTokens st !! t = Some firstToken ->
  getFirstTokenOfLine (_tokenInfo st) firstToken = Some lineToken ->
  getDesiredIndent (S n) st t =
    match getDesiredIndent n st lineToken with
    | Ok v st' =>
        cache_and_return st' t
          (v + Qc_of_Z (loc_start_column firstToken - loc_start_column lineToken)
               / Qc_of_Z (_indentSize st))%Qc
    | TypeError => TypeError
    | OutOfFuel => OutOfFuel
    end.
Proof.
  intros Hc Hi Hl Hf. rewrite getDesiredIndent_unfold. unfold getDesiredIndent_body.
  by rewrite Hc, bool_decide_eq_false_2, Hl, Hf.
Qed.

(** An ignored token that is not cached yet resolves to its actual
    indentation divided by the indent size. *)
Lemma getDesiredIndent_ignored fuel st t :
  _desiredIndentCache st !! t = None -> t ∈ _ignoredTokens st ->
  getDesiredIndent fuel st t =
    cache_and_return st t
      (Qc_of_Z (Z.of_nat (String.length (getTokenIndent (_tokenInfo st) t)))
       / Qc_of_Z (_indentSize st))%Qc.
Proof.
  intros Hc Hi. rewrite getDesiredIndent_unfold. unfold getDesiredIndent_body.
  by rewrite Hc, bool_decide_eq_true_2.
Qed.

(** A token without anchor resolves to the offset of its descriptor. *)
Lemma getDesiredIndent_no_anchor fuel st t d :
  _desiredIndentCache st !! t = None -> t ∉ _ignoredTokens st ->
  _lockedFirstTokens st !! t = None ->
  _getOffsetDescriptor st t = Some d -> from d = None ->
  getDesiredIndent fuel st t = cache_and_return st t (offset d + 0)%Qc.
Proof.
  intros Hc Hi Hl Hd Hf. rewrite getDesiredIndent_unfold. unfold getDesiredIndent_body.
  rewrite Hc, bool_decide_eq_false_2, Hl, Hd, Hf by done.
  unfold collapsedOffset. by rewrite Hf.
Qed.

Lemma same_but_tree_with_cache s1 s2 c :
  same_but_tree s1 s2 -> same_but_tree (with_cache s1 c) (with_cache s2 c).
Proof. intros (? & ? & ? & ? & ?). by repeat split. Qed.

Lemma dependency_same_but_tree st1 st2 t :
  same_but_tree st1 st2 -> _getOffsetDescriptor st1 t = _getOffsetDescriptor st2 t ->
  dependency st1 t = dependency st2 t.
Proof.
  intros (Hti & Hsz & Hl & Hc & Hi) Hd. unfold dependency.
  by rewrite Hti, Hl, Hc, Hi, Hd.
Qed.

Lemma getDesiredIndent_body_agree self1 self2 st1 st2 t :
  same_but_tree st1 st2 ->
  _getOffsetDescriptor st1 t = _getOffsetDescriptor st2 t ->
  (forall u, dependency st1 t = Some u -> result_agree (self1 u) (self2 u)) ->
  result_agree (getDesiredIndent_body self1 st1 t) (getDesiredIndent_body self2 st2 t).
Proof.
  intros Hsame Hd Hself. pose proof Hsame as (Hti & Hsz & Hl & Hc & Hi).
  revert Hself. unfold dependency, getDesiredIndent_body, cache_and_return.
  rewrite Hti, Hsz, Hl, Hc, Hi, Hd.
  destruct (_desiredIndentCache st2 !! t); [done|].
  destruct (bool_decide _).
  { intros _. split; [done|]. by apply same_but_tree_with_cache. }
  destruct (_lockedFirstTokens st2 !! t) as [ft|].
  - destruct (getFirstTokenOfLine _ ft) as [lt|]; [|done].
    intros Hself. specialize (Hself lt eq_refl).
    destruct (self1 lt), (self2 lt); simpl in Hself; try done.
    destruct Hself as [-> Hs]. split; [done|].
    pose proof Hs as (_ & _ & _ & Hc' & _). rewrite Hc'. by apply same_but_tree_with_cache.
  - destruct (_getOffsetDescriptor st2 t) as [d|]; [|done].
    destruct (from d) as [f|].
    + intros Hself. specialize (Hself f eq_refl).
      destruct (self1 f), (self2 f); simpl in Hself; try done.
      destruct Hself as [-> Hs]. split; [done|].
      pose proof Hs as (_ & _ & _ & Hc' & _). rewrite Hc'. by apply same_but_tree_with_cache.
    + intros _. split; [done|]. by apply same_but_tree_with_cache.
Qed.

Lemma getDesiredIndent_agree fuel st1 st2 t :
  same_but_tree st1 st2 ->
  (forall n u, chain st1 t n = Some u ->
     _getOffsetDescriptor st1 u = _getOffsetDescriptor st2 u) ->
  result_agree (getDesiredIndent fuel st1 t) (getDesiredIndent fuel st2 t).
Proof.
  intros Hsame. revert t. induction fuel as [|n IH]; intros t Hchain;
    rewrite !getDesiredIndent_unfold;
    (apply getDesiredIndent_body_agree; [done | by apply (Hchain O) |]);
    intros u Hu; [done|].
  apply IH. intros m w Hw. apply (Hchain (S m)). simpl. by rewrite Hu.
Qed.

Lemma result_agree_outcome r1 r2 : result_agree r1 r2 -> outcome r1 = outcome r2.
Proof. destruct r1, r2; simpl; try done. by intros [-> _]. Qed.

(** A query that runs out of fuel has followed a chain longer than the
    fuel. *)
Lemma getDesiredIndent_body_diverges self st t :
  getDesiredIndent_body self st t = OutOfFuel ->
  exists u, dependency st t = Some u /\ self u = OutOfFuel.
Proof.
  unfold getDesiredIndent_body, dependency, cache_and_return. intros H.
  repeat case_match; simplify_eq; eauto.
Qed.

Lemma getDesiredIndent_diverges fuel st t i :
  getDesiredIndent fuel st t = OutOfFuel -> (i <= S fuel)%nat -> is_Some (chain st t i).
Proof.
  revert t i. induction fuel as [|n IH]; intros t i; rewrite getDesiredIndent_unfold;
    intros H Hi; apply getDesiredIndent_body_diverges in H as (u & Hu & Hself).
  - destruct i as [|[|i]]; simpl; [done | by rewrite Hu | lia].
  - destruct i as [|i]; simpl; [done|]. rewrite Hu. apply IH; [done | lia].
Qed.

Lemma findLe_elem p (t : BST.Tree) e : BST.findLe p t = Some e -> e ∈ t.
Proof.
  induction t as [|[k0 v0] r IH]; simpl; [done|].
  destruct (k0 <=? p); [|done]. destruct (BST.findLe p r) eqn:E.
  - intros [= ->]. right. by apply IH.
  - intros [= <-]. by left.
Qed.

Lemma dependency_target st t u : dependency st t = Some u -> u ∈ dependencyTargets st.
Proof.
  unfold dependency, dependencyTargets, _getOffsetDescriptor. intros H.
  repeat case_match; simplify_eq.
  - apply elem_of_app. right. apply list_elem_of_omap.
    eexists (t, _). split; [by apply elem_of_map_to_list | done].
  - apply elem_of_app. left. apply list_elem_of_omap.
    destruct (BST.findLe (range_0 t) (_tree st)) as [[k v]|] eqn:E; [|done].
    simpl in *. subst v. eexists. split; [by eapply findLe_elem|]. done.
Qed.

Lemma chain_target st t i u : chain st t (S i) = Some u -> u ∈ dependencyTargets st.
Proof.
  revert t. induction i as [|i IH]; intros t; simpl.
  - destruct (dependency st t) eqn:E; [|done]. intros [= <-]. by eapply dependency_target.
  - destruct (dependency st t) eqn:E; [|done]. apply IH.
Qed.

(** A chain that never revisits a token is no longer than the number of
    dependency targets, so the query answers within that depth. *)
Lemma getDesiredIndent_terminates fuel st t :
  never_revisits st t -> (length (dependencyTargets st) <= fuel)%nat ->
  getDesiredIndent fuel st t <> OutOfFuel.
Proof.
  intros Hnr Hfuel Hdiv.
  pose proof (fun i => getDesiredIndent_diverges fuel st t i Hdiv) as Hchain.
  set (l := (fun i => default t (chain st t i)) <$> seq 1 (S fuel)).
  assert (NoDup l) as Hnd.
  { apply NoDup_fmap_2_strong; [|apply NoDup_seq].
    intros i j Hi Hj Heq. apply elem_of_seq in Hi, Hj.
    destruct (Hchain i ltac:(lia)) as [ui Hui], (Hchain j ltac:(lia)) as [uj Huj].
    rewrite Hui, Huj in Heq. simpl in Heq. subst uj.
    destruct (Nat.lt_trichotomy i j) as [Hlt|[->|Hlt]]; [|done|].
    - exfalso. by eapply Hnr.
    - exfalso. by eapply Hnr. }
  assert (l ⊆+ dependencyTargets st) as Hsub.
  { apply NoDup_submseteq; [done|]. intros u Hu.
    apply list_elem_of_fmap in Hu as (i & -> & Hi). apply elem_of_seq in Hi.
    destruct i as [|i]; [lia|].
    destruct (Hchain (S i) ltac:(lia)) as [w Hw]. rewrite Hw. simpl.
    by eapply chain_target. }
  apply submseteq_length in Hsub. unfold l in Hsub.
  rewrite length_fmap, length_seq in Hsub. lia.
Qed.

End QueryFacts.

(** * Facts about sequences of calls *)

Section RunFacts.

Implicit Types (st : OffsetStorage) (t u : Token) (c : Call) (calls : list Call).

Lemma grows_refl st : grows st st.
Proof. by repeat split. Qed.

Lemma grows_trans st1 st2 st3 : grows st1 st2 -> grows st2 st3 -> grows st1 st3.
Proof.
  intros (? & ? & ? & ?) (? & ? & ? & ?). repeat split; [auto | set_solver | auto..].
Qed.

Lemma grows_setDesiredOffsets st range fromToken off frc :
  grows st (setDesiredOffsets st range fromToken off frc).
Proof.
  repeat split; simpl; try done. apply sorted_setDesiredOffsets_tree.
Qed.

Lemma grows_call st c st' : call st c = Some st' -> grows st st'.
Proof.
  destruct c; simpl; intros H; simplify_eq;
    try apply grows_setDesiredOffsets.
  - repeat split; simpl; try done.
    intros u Hu. destruct (decide (offsetToken = u)) as [->|Hne].
    + by rewrite lookup_insert_eq in Hu.
    + by rewrite lookup_insert_ne in Hu.
  - unfold ignoreToken. destruct (isFirstTokenOfLine _ _); [|apply grows_refl].
    repeat split; simpl; try done. set_solver.
  - destruct (getDesiredIndent fuel st token) as [v s| |] eqn:E; simplify_eq.
    apply getDesiredIndent_extends in E as (? & ? & Ht & Hl & Hi & ?).
    repeat split; [by rewrite Ht | by rewrite Hi | by rewrite Hl | done].
Qed.

Lemma grows_run st calls st' : run st calls = Some st' -> grows st st'.
Proof.
  revert st. induction calls as [|c rest IH]; simpl; intros st H.
  - simplify_eq. apply grows_refl.
  - destruct (call st c) as [st1|] eqn:E; [|done].
    eapply grows_trans; [by eapply grows_call | by apply IH].
Qed.

(** The tree after a call. *)
Lemma tree_call st c st' :
  call st c = Some st' ->
  _tree st' =
    match c with
    | CallSetDesiredOffsets range fromToken off frc =>
        setDesiredOffsets_tree (_tree st) range fromToken off frc
    | CallSetDesiredOffset token fromToken off =>
        setDesiredOffsets_tree (_tree st) (range_0 token, range_1 token) fromToken off None
    | CallMatchIndentOf baseToken offsetToken =>
        setDesiredOffsets_tree (_tree st) (range_0 offsetToken, range_1 offsetToken)
          (Some baseToken) 0%Qc None
    | _ => _tree st
    end.
Proof.
  destruct c; simpl; intros H; simplify_eq; try done.
  - unfold ignoreToken. by destruct (isFirstTokenOfLine _ _).
  - destruct (getDesiredIndent fuel st token) as [v s| |] eqn:E; simplify_eq.
    by apply getDesiredIndent_extends in E as (? & ? & Ht & _).
Qed.

Lemma tree_declaration st c st' :
  call st c = Some st' ->
  match declaration c with
  | Some (range, fromToken) =>
      exists off frc, _tree st' = setDesiredOffsets_tree (_tree st) range fromToken off frc
  | None => _tree st' = _tree st
  end.
Proof. intros H. apply tree_call in H. destruct c; simpl; eauto. Qed.

(** ** Tiling *)

Lemma elem_lookup (t : BST.Tree) k v : BST.sorted t -> (k, v) ∈ t <-> BST.lookup k t = Some v.
Proof.
  induction t as [|[k0 v0] r IH]; simpl; intros Hs.
  - split; [by intros ?%elem_of_nil | done].
  - apply sorted_cons_inv in Hs as [Hr Hall]. rewrite list.Forall_forall in Hall.
    rewrite elem_of_cons, (IH Hr). destruct (Z.eqb_spec k k0) as [->|Hne].
    + split; [|intros [= ->]; by left].
      intros [[= ->]|Hl]; [done|]. apply lookup_Some_keys in Hl.
      specialize (Hall _ Hl). lia.
    + split; [intros [[= ? ?]|?]; done | by right].
Qed.

Lemma governs_findLe (t : BST.Tree) p e :
  BST.sorted t -> BST.findLe p t = Some e -> forall e', governs t p e' <-> e' = e.
Proof.
  intros Hs Hf [k' v']. destruct e as [k v]. pose proof Hf as Hf'.
  apply findLe_Some in Hf as (Hl & Hp & Hno); [|done]. unfold governs; simpl. split.
  - intros (Hin & Hp' & Hmax). apply elem_lookup in Hin; [|done].
    assert (k <= k') by (apply Hmax; [by eapply lookup_Some_keys | done]).
    destruct (decide (k' = k)) as [->|Hne]; [congruence|].
    rewrite Hno in Hin by lia. done.
  - intros [= -> ->]. split; [by eapply findLe_elem|]. split; [done|].
    intros k0 Hk0 Hk0p. destruct (decide (k0 <= k)); [done|].
    apply lookup_None_keys in Hk0; [done|]. apply Hno. lia.
Qed.

Lemma tiling_findLe (t : BST.Tree) p :
  tiling t -> 0 <= p -> exists k d, BST.findLe p t = Some (k, Some d).
Proof.
  intros (Hs & [d0 H0] & Hv) Hp. destruct (BST.findLe p t) as [[k v]|] eqn:E.
  - pose proof E as E'. apply findLe_Some in E' as (Hl & _); [|done].
    destruct (Hv _ _ Hl) as [d ->]. eauto.
  - rewrite (proj1 (findLe_None p t Hs) E 0 Hp) in H0. done.
Qed.

Lemma tiling_initial : tiling (BST.insert 0 (Some initialDescriptor) BST.empty).
Proof.
  split; [|split].
  - apply sorted_insert. constructor.
  - exists initialDescriptor. rewrite lookup_tree_insert. by case_decide.
  - intros k v. rewrite lookup_tree_insert. case_decide; [|done]. by intros [= <-].
Qed.

Lemma tiling_setDesiredOffsets_tree (t : BST.Tree) range fromToken off frc :
  tiling t -> 0 <= range.1 <= range.2 ->
  tiling (setDesiredOffsets_tree t range fromToken off frc).
Proof.
  intros Ht Hr. pose proof Ht as (Hs & [d0 H0] & Hv).
  assert (Hdef : forall p, 0 <= p -> is_Some (BST.value (BST.findLe p t))).
  { intros p Hp. destruct (tiling_findLe t p Ht Hp) as (k & d & ->). by eexists. }
  assert (Hall : forall k v,
    BST.lookup k (setDesiredOffsets_tree t range fromToken off frc) = Some v ->
    is_Some v).
  { intros k v. rewrite lookup_setDesiredOffsets_tree by done. cbv zeta.
    case_decide; [intros [= <-]; apply Hdef; lia|].
    destruct fromToken as [f|].
    - case_decide; [by intros [= <-]|].
      case_decide as Hin.
      { destruct Hin as [Hin _]. apply fromTokenIsInRange_Some in Hin.
        intros [= <-]. apply Hdef. lia. }
      case_decide; [by intros [= <-]|]. case_decide; [done|]. apply Hv.
    - case_decide; [by intros [= <-]|]. case_decide; [done|]. apply Hv. }
  split; [by apply sorted_setDesiredOffsets_tree|]. split; [|done].
  assert (is_Some (BST.lookup 0 (setDesiredOffsets_tree t range fromToken off frc)))
    as [v Hl].
  { rewrite lookup_setDesiredOffsets_tree by done. cbv zeta.
    repeat case_match; try done; try lia. all: by rewrite H0. }
  destruct (Hall _ _ Hl) as [d ->]. eauto.
Qed.

Lemma tiling_call_step st c st' :
  tiling (_tree st) -> tiling_call c -> call st c = Some st' -> tiling (_tree st').
Proof.
  intros Ht Hc H. apply tree_declaration in H. unfold tiling_call in Hc.
  destruct (declaration c) as [[range fromToken]|].
  - destruct H as (off & frc & ->). by apply tiling_setDesiredOffsets_tree.
  - by rewrite H.
Qed.

Lemma tiling_run st calls st' :
  tiling (_tree st) -> Forall tiling_call calls -> run st calls = Some st' ->
  tiling (_tree st').
Proof.
  revert st. induction calls as [|c rest IH]; simpl; intros st Ht Hall H.
  - by simplify_eq.
  - destruct (call st c) as [st1|] eqn:E; [|done].
    inversion Hall as [|? ? Hc Hrest]; subst.
    eapply IH; [|done..]. by eapply tiling_call_step.
Qed.

End RunFacts.

(** * The properties of the specification *)

(** C1 (tiling invariant).  From the initial storage, after any sequence of
    calls whose declared ranges [[a, b]] satisfy [0 <= a <= b], the keys of
    the tree are strictly increasing, key 0 is present, and every position
    [p >= 0] is governed by exactly one node, the one [findLe p] returns,
    which carries a descriptor. *)
Theorem C1_tiling_invariant tokenInfo indentSize calls st :
  Forall tiling_call calls ->
  run (newOffsetStorage tokenInfo indentSize) calls = Some st ->
  StronglySorted Z.lt (BST.keys (_tree st)) /\
  0 ∈ BST.keys (_tree st) /\
  forall p, 0 <= p ->
    exists k d, BST.findLe p (_tree st) = Some (k, Some d) /\
                forall e, governs (_tree st) p e <-> e = (k, Some d).
Proof.
  intros Hcalls Hrun.
  assert (tiling (_tree st)) as Ht.
  { apply (tiling_run (newOffsetStorage tokenInfo indentSize) calls st); [|done..].
    apply tiling_initial. }
  pose proof Ht as (Hs & [d0 H0] & _).
  split; [done|]. split; [by eapply lookup_Some_keys|].
  intros p Hp. destruct (tiling_findLe _ p Ht Hp) as (k & d & Hf).
  exists k, d. split; [done|]. by apply governs_findLe.
Qed.

Lemma C1_tiling_invariant_witness :
  let calls := [CallSetDesiredOffsets (2, 6) (Some Examples.tokB) 1%Qc None;
                CallMatchIndentOf Examples.tokA Examples.tokB] in
  exists st, run Examples.fresh calls = Some st /\
    StronglySorted Z.lt (BST.keys (_tree st)) /\
    0 ∈ BST.keys (_tree st) /\
    forall p, 0 <= p ->
      exists k d, BST.findLe p (_tree st) = Some (k, Some d) /\
                  forall e, governs (_tree st) p e <-> e = (k, Some d).
Proof.
  eexists. split; [reflexivity|].
  apply (C1_tiling_invariant Examples.info 1
           [CallSetDesiredOffsets (2, 6) (Some Examples.tokB) 1%Qc None;
            CallMatchIndentOf Examples.tokA Examples.tokB]).
  - repeat constructor; simpl; lia.
  - reflexivity.
Defined.

(** C5 (frame above the range).  For a range [[a, b]] with [a <= b], a call
    of [setDesiredOffsets] leaves the descriptor that [findLe p] returns
    unchanged at every [p >= b]; the descriptor that was active at [b] is the
    value of the node at key [b] afterwards. *)
Theorem C5_no_leak_past_end st a b anchor level frc p :
  BST.sorted (_tree st) -> a <= b -> b <= p ->
  BST.value (BST.findLe p (_tree (setDesiredOffsets st (a, b) anchor level frc)))
    = BST.value (BST.findLe p (_tree st)) /\
  BST.lookup b (_tree (setDesiredOffsets st (a, b) anchor level frc))
    = Some (BST.value (BST.findLe b (_tree st))).
Proof.
  intros Hs Hab Hp. split.
  - by apply findLe_above_setDesiredOffsets_tree.
  - apply (lookup_end_setDesiredOffsets_tree (_tree st) (a, b)).
Qed.

Lemma C5_no_leak_past_end_witness :
  BST.value (BST.findLe 7 (_tree (setDesiredOffsets
     (Examples.declared None) (2, 6) (Some Examples.tokA) 1%Qc (Some true))))
    = BST.value (BST.findLe 7 (_tree (Examples.declared None))) /\
  BST.lookup 6 (_tree (setDesiredOffsets
     (Examples.declared None) (2, 6) (Some Examples.tokA) 1%Qc (Some true)))
    = Some (BST.value (BST.findLe 6 (_tree (Examples.declared None)))).
Proof.
  apply (C5_no_leak_past_end (Examples.declared None) 2 6 (Some Examples.tokA) 1%Qc
           (Some true) 7).
  - repeat constructor.
  - lia.
  - lia.
Defined.

(** C6 (idempotence).  Declaring the same offsets twice in a row leaves the
    storage that declaring them once leaves, so every token resolves alike. *)
Theorem C6_idempotence st range anchor level frc :
  BST.sorted (_tree st) ->
  let once := setDesiredOffsets st range anchor level frc in
  let twice := setDesiredOffsets once range anchor level frc in
  twice = once /\
  forall fuel t, getDesiredIndent fuel twice t = getDesiredIndent fuel once t.
Proof.
  intros Hs once twice.
  assert (twice = once) as ->; [|done].
  unfold twice, once, setDesiredOffsets, with_tree. simpl.
  by rewrite setDesiredOffsets_tree_idem.
Qed.

Lemma C6_idempotence_witness :
  let once := setDesiredOffsets Examples.nested (0, 10) (Some Examples.tokY) 1%Qc None in
  let twice := setDesiredOffsets once (0, 10) (Some Examples.tokY) 1%Qc None in
  twice = once /\
  forall fuel t, getDesiredIndent fuel twice t = getDesiredIndent fuel once t.
Proof.
  apply (C6_idempotence Examples.nested (0, 10) (Some Examples.tokY) 1%Qc None).
  repeat constructor.
Defined.

(** C10 (memoization).  Once [getDesiredIndent(t)] has returned [v], every
    later [getDesiredIndent(t)] on the same storage returns [v], whatever
    calls were made in between. *)
Theorem C10_memoized_forever fuel st t v st1 calls st2 fuel' :
  getDesiredIndent fuel st t = Ok v st1 ->
  run st1 calls = Some st2 ->
  getDesiredIndent fuel' st2 t = Ok v st2.
Proof.
  intros Hq Hrun. apply getDesiredIndent_hit.
  apply grows_run in Hrun as (_ & _ & _ & Hcache). apply Hcache.
  by eapply getDesiredIndent_cached.
Qed.

Lemma C10_memoized_forever_witness :
  exists st1 st2,
    getDesiredIndent 0 Examples.fresh Examples.tokA = Ok (0 + 0)%Qc st1 /\
    run st1 [CallSetDesiredOffsets (0, 4) (Some Examples.tokB) 1%Qc (Some true);
             CallIgnoreToken Examples.tokA] = Some st2 /\
    getDesiredIndent 1 st2 Examples.tokA = Ok (0 + 0)%Qc st2.
Proof.
  eexists _, _. split; [reflexivity|]. split; [reflexivity|].
  eapply (C10_memoized_forever 0 Examples.fresh Examples.tokA (0 + 0)%Qc _
            [CallSetDesiredOffsets (0, 4) (Some Examples.tokB) 1%Qc (Some true);
             CallIgnoreToken Examples.tokA] _ 1).
  - reflexivity.
  - reflexivity.
Defined.

(** ** Default resolution *)

Section DefaultFacts.

Variable t : Token.

Lemma cache_zero_insert st u v :
  cache_zero t st -> (u = t -> v = 0%Qc) ->
  cache_zero t (with_cache st (<[u := v]> (_desiredIndentCache st))).
Proof.
  unfold cache_zero. simpl. intros Hz Hv x.
  destruct (decide (u = t)) as [->|Hne].
  - rewrite lookup_insert_eq. intros [= <-]. by apply Hv.
  - rewrite lookup_insert_ne by done. apply Hz.
Qed.

Lemma getDesiredIndent_body_default self st u v st1 :
  (forall w v' s', self w = Ok v' s' -> cache_zero t s') ->
  cache_zero t st -> t ∉ _ignoredTokens st -> _lockedFirstTokens st !! t = None ->
  _getOffsetDescriptor st t = Some initialDescriptor ->
  getDesiredIndent_body self st u = Ok v st1 -> cache_zero t st1.
Proof.
  unfold getDesiredIndent_body, cache_and_return.
  intros Hself Hz Hi Hl Hd H.
  destruct (_desiredIndentCache st !! u) eqn:Hc; [by simplify_eq|].
  destruct (bool_decide (u ∈ _ignoredTokens st)) eqn:Hb.
  { simplify_eq. apply cache_zero_insert; [done|]. intros ->.
    by apply bool_decide_eq_true_1 in Hb. }
  destruct (_lockedFirstTokens st !! u) as [ft|] eqn:Hlu.
  { destruct (getFirstTokenOfLine _ ft) as [lt|]; [|done].
    destruct (self lt) as [v' s'| |] eqn:Hs; simplify_eq.
    apply cache_zero_insert; [by eapply Hself|]. intros ->. congruence. }
  destruct (_getOffsetDescriptor st u) as [d|] eqn:Hdu; [|done].
  destruct (from d) as [f|] eqn:Hf.
  - destruct (self f) as [v' s'| |] eqn:Hs; simplify_eq.
    apply cache_zero_insert; [by eapply Hself|]. intros ->.
    rewrite Hd in Hdu. by simplify_eq.
  - simplify_eq. apply cache_zero_insert; [done|]. intros ->.
    rewrite Hd in Hdu. simplify_eq. unfold collapsedOffset. simpl. apply Qcplus_0_l.
Qed.

Lemma getDesiredIndent_default fuel st u v st1 :
  cache_zero t st -> t ∉ _ignoredTokens st -> _lockedFirstTokens st !! t = None ->
  _getOffsetDescriptor st t = Some initialDescriptor ->
  getDesiredIndent fuel st u = Ok v st1 -> cache_zero t st1.
Proof.
  intros Hz Hi Hl Hd. revert u v st1. induction fuel as [|n IH]; intros u v st1;
    rewrite getDesiredIndent_unfold; apply getDesiredIndent_body_default; eauto; done.
Qed.

Lemma default_call st c st1 :
  BST.sorted (_tree st) ->
  _getOffsetDescriptor st t = Some initialDescriptor -> cache_zero t st ->
  wf_call c -> not_covering (range_0 t) c ->
  t ∉ _ignoredTokens st -> _lockedFirstTokens st !! t = None ->
  call st c = Some st1 ->
  _getOffsetDescriptor st1 t = Some initialDescriptor /\ cache_zero t st1.
Proof.
  intros Hs Hd Hz Hwf Hnc Hi Hl Hcall. split.
  - apply tree_declaration in Hcall. unfold wf_call, not_covering in *.
    unfold _getOffsetDescriptor in *.
    destruct (declaration c) as [[range fromToken]|].
    + destruct Hcall as (off & frc & ->). destruct Hwf as [Hr Ha].
      by rewrite findLe_outside_setDesiredOffsets_tree.
    + by rewrite Hcall.
  - destruct c; simpl in Hcall; simplify_eq; try done.
    + unfold ignoreToken. by destruct (isFirstTokenOfLine _ _).
    + destruct (getDesiredIndent fuel st token) as [v s| |] eqn:E; simplify_eq.
      by eapply getDesiredIndent_default.
Qed.

Lemma default_run calls st st' :
  BST.sorted (_tree st) ->
  _getOffsetDescriptor st t = Some initialDescriptor -> cache_zero t st ->
  Forall wf_call calls -> Forall (not_covering (range_0 t)) calls ->
  run st calls = Some st' ->
  t ∉ _ignoredTokens st' -> _lockedFirstTokens st' !! t = None ->
  _getOffsetDescriptor st' t = Some initialDescriptor /\ cache_zero t st'.
Proof.
  revert st. induction calls as [|c rest IH]; simpl; intros st Hs Hd Hz Hwf Hnc Hrun Hi Hl.
  - by simplify_eq.
  - destruct (call st c) as [st1|] eqn:E; [|done].
    inversion Hwf as [|? ? Hwf1 Hwf2]; inversion Hnc as [|? ? Hnc1 Hnc2]; subst.
    pose proof (grows_run _ _ _ Hrun) as (_ & Hi1 & Hl1 & _).
    pose proof (grows_call _ _ _ E) as (Hs1 & Hi0 & Hl0 & _).
    destruct (default_call st c st1) as [Hd1 Hz1]; try done.
    + intros Hin. by apply Hi, Hi1, Hi0.
    + auto.
    + apply (IH st1); auto.
Qed.

End DefaultFacts.

(** C8 (default resolution).  A token at a position [>= 0] that no
    declaration of the history covers, and that is neither ignored nor
    alignment-locked, is still governed by the initial descriptor and
    resolves to 0.  The declared ranges and their anchors are well formed
    (start at or before end). *)
Theorem C8_default_zero tokenInfo indentSize calls st t fuel :
  Forall wf_call calls ->
  Forall (not_covering (range_0 t)) calls ->
  0 <= range_0 t ->
  run (newOffsetStorage tokenInfo indentSize) calls = Some st ->
  t ∉ _ignoredTokens st ->
  _lockedFirstTokens st !! t = None ->
  _getOffsetDescriptor st t = Some initialDescriptor /\
  exists st', getDesiredIndent fuel st t = Ok 0%Qc st'.
Proof.
  intros Hwf Hnc Hp Hrun Hi Hl.
  assert (BST.sorted (_tree (newOffsetStorage tokenInfo indentSize))) as Hs0.
  { apply sorted_insert. constructor. }
  assert (_getOffsetDescriptor (newOffsetStorage tokenInfo indentSize) t
          = Some initialDescriptor) as Hd0.
  { unfold _getOffsetDescriptor. simpl. by destruct (Z.leb_spec0 0 (range_0 t)). }
  assert (cache_zero t (newOffsetStorage tokenInfo indentSize)) as Hz0.
  { intros x. simpl. by rewrite lookup_empty. }
  destruct (default_run t calls _ st Hs0 Hd0 Hz0 Hwf Hnc Hrun Hi Hl) as [Hd Hz].
  split; [done|]. destruct (_desiredIndentCache st !! t) as [x|] eqn:E.
  - rewrite (Hz x E) in E. exists st. by apply getDesiredIndent_hit.
  - rewrite (getDesiredIndent_no_anchor fuel st t initialDescriptor) by done.
    unfold cache_and_return. simpl. rewrite Qcplus_0_l. eauto.
Qed.

Lemma C8_default_zero_witness :
  exists st,
    run Examples.fresh
      [CallSetDesiredOffsets (0, 4) (Some Examples.tokB) 1%Qc None;
       CallGetDesiredIndent 1 Examples.tokA] = Some st /\
    _getOffsetDescriptor st Examples.tokB = Some initialDescriptor /\
    exists st', getDesiredIndent 0 st Examples.tokB = Ok 0%Qc st'.
Proof.
  eexists. split; [reflexivity|].
  apply (C8_default_zero Examples.info 1
           [CallSetDesiredOffsets (0, 4) (Some Examples.tokB) 1%Qc None;
            CallGetDesiredIndent 1 Examples.tokA]).
  - repeat constructor; unfold wf_range; simpl; lia.
  - repeat constructor. unfold not_covering, in_range. simpl. lia.
  - simpl. lia.
  - reflexivity.
  - simpl. set_solver.
  - reflexivity.
Defined.

(** ** Self-reference avoidance *)

(** C2 (self-reference avoidance, as the code has it).  When the anchor is a
    non-empty token that lies wholly inside the declared range, the call
    leaves the anchor governed by its prior descriptor; and when no other
    token of the anchor's dependency chain starts inside the range, the
    anchor resolves after the call exactly as before it, to the same value or
    to the same failure, so no cycle through the anchor is created. *)
Theorem C2_anchor_descriptor_preserved st range anchor level frc :
  BST.sorted (_tree st) ->
  range.1 <= range_0 anchor -> range_0 anchor < range_1 anchor -> range_1 anchor <= range.2 ->
  let st' := setDesiredOffsets st range (Some anchor) level frc in
  _getOffsetDescriptor st' anchor = _getOffsetDescriptor st anchor /\
  ((forall n u, chain st anchor (S n) = Some u -> ~ in_range range (range_0 u)) ->
   forall fuel,
     outcome (getDesiredIndent fuel st' anchor) = outcome (getDesiredIndent fuel st anchor)).
Proof.
  intros Hs H0 H1 H2 st'.
  assert (_getOffsetDescriptor st' anchor = _getOffsetDescriptor st anchor) as Hkeep.
  { unfold _getOffsetDescriptor, st'. simpl.
    apply value_findLe_key; [by apply sorted_setDesiredOffsets_tree|].
    by apply lookup_anchor_setDesiredOffsets_tree. }
  split; [done|]. intros Hchain fuel. symmetry.
  apply result_agree_outcome, getDesiredIndent_agree; [by repeat split|].
  intros [|n] u Hu.
  - simpl in Hu. by simplify_eq.
  - unfold _getOffsetDescriptor, st'. simpl. symmetry.
    apply findLe_outside_setDesiredOffsets_tree; [done | unfold wf_range; lia | simpl; lia |].
    by eapply Hchain.
Qed.

Lemma C2_anchor_descriptor_preserved_witness :
  let st' := setDesiredOffsets Examples.nested (3, 10) (Some Examples.tokY) 1%Qc None in
  _getOffsetDescriptor st' Examples.tokY = _getOffsetDescriptor Examples.nested Examples.tokY /\
  forall fuel,
    outcome (getDesiredIndent fuel st' Examples.tokY)
    = outcome (getDesiredIndent fuel Examples.nested Examples.tokY).
Proof.
  destruct (C2_anchor_descriptor_preserved Examples.nested (3, 10) Examples.tokY 1%Qc None)
    as [Hkeep Hsame].
  - repeat constructor.
  - simpl. lia.
  - simpl. lia.
  - simpl. lia.
  - split; [exact Hkeep|]. apply Hsame.
    intros [|n] u Hu; vm_compute in Hu; [|discriminate Hu].
    injection Hu as <-. unfold in_range. simpl. lia.
Defined.

(** Two inputs at which C2 fails as stated.
    - The anchor [cdefg] starts inside the range [[0, 5]] and ends after it:
      it falls under the new descriptor, which names it as its own anchor,
      and its resolution, which returned 0 before the call, never returns.
    - The anchor [y] lies wholly inside the range [[0, 10]] and keeps its
      descriptor, which is offset from [x]; but [x] starts inside the range
      too and falls under the new descriptor, offset from [y]: the resolution
      of [y], which returned 1 before the call, never returns. *)
Lemma C2_counterexample :
  (let st := Examples.freshS in
   let anchor := Examples.straddling in
   let st' := setDesiredOffsets st (0, 5) (Some anchor) 1%Qc None in
   in_range (0, 5) (range_0 anchor) /\
   _getOffsetDescriptor st anchor = Some initialDescriptor /\
   _getOffsetDescriptor st' anchor
     = Some {| offset := 1%Qc; from := Some anchor; force := None |} /\
   (forall fuel, outcome (getDesiredIndent fuel st anchor) = Returns 0%Qc) /\
   (forall fuel, outcome (getDesiredIndent fuel st' anchor) = Diverges)) /\
  (let st := Examples.nested in
   let anchor := Examples.tokY in
   let st' := setDesiredOffsets st (0, 10) (Some anchor) 1%Qc None in
   in_range (0, 10) (range_0 anchor) /\
   range_1 anchor <= 10 /\
   _getOffsetDescriptor st' anchor = _getOffsetDescriptor st anchor /\
   chain st anchor 1 = Some Examples.tokX /\
   in_range (0, 10) (range_0 Examples.tokX) /\
   (forall fuel, outcome (getDesiredIndent (S fuel) st anchor) = Returns (1 + (0 + 0))%Qc) /\
   (forall fuel, outcome (getDesiredIndent fuel st' anchor) = Diverges)).
Proof.
  split.
  - intros st anchor st'. split; [unfold in_range; simpl; lia|].
    split; [reflexivity|]. split; [reflexivity|]. split.
    + intros fuel.
      rewrite (getDesiredIndent_no_anchor fuel st anchor initialDescriptor);
        [|reflexivity | set_solver | reflexivity..].
      reflexivity.
    + intros fuel. induction fuel as [|n IH]; [reflexivity|].
      rewrite (getDesiredIndent_descriptor_step n st' anchor
                 {| offset := 1%Qc; from := Some anchor; force := None |} anchor);
        [|reflexivity | set_solver | reflexivity..].
      by destruct (getDesiredIndent n st' anchor).
  - intros st anchor st'. split; [unfold in_range; simpl; lia|].
    split; [simpl; lia|]. split; [reflexivity|]. split; [reflexivity|].
    split; [unfold in_range; simpl; lia|]. split.
    + intros fuel.
      rewrite (getDesiredIndent_descriptor_step fuel st anchor
                 {| offset := 1%Qc; from := Some Examples.tokX; force := None |}
                 Examples.tokX);
        [|reflexivity | set_solver | reflexivity..].
      rewrite (getDesiredIndent_no_anchor fuel st Examples.tokX initialDescriptor);
        [|reflexivity | set_solver | reflexivity..].
      reflexivity.
    + assert (forall fuel, getDesiredIndent fuel st' anchor = OutOfFuel /\
                           getDesiredIndent fuel st' Examples.tokX = OutOfFuel) as H.
      { induction fuel as [|n [IHy IHx]]; [by split|]. split.
        - rewrite (getDesiredIndent_descriptor_step n st' anchor
                     {| offset := 1%Qc; from := Some Examples.tokX; force := None |}
                     Examples.tokX);
            [|reflexivity | set_solver | reflexivity..].
          by rewrite IHx.
        - rewrite (getDesiredIndent_descriptor_step n st' Examples.tokX
                     {| offset := 1%Qc; from := Some anchor; force := None |} anchor);
            [|reflexivity | set_solver | reflexivity..].
          by rewrite IHy. }
      intros fuel. by rewrite (proj1 (H fuel)).
Qed.

(** ** Same-line collapse *)

(** Resolution of a token through a descriptor with an anchor, from a state
    in which the anchor resolves. *)
Lemma getDesiredIndent_through_anchor fuel st t d anchor vA stA :
  _desiredIndentCache st !! t = None -> t ∉ _ignoredTokens st ->
  _lockedFirstTokens st !! t = None ->
  _getOffsetDescriptor st t = Some d -> from d = Some anchor ->
  getDesiredIndent fuel st anchor = Ok vA stA ->
  exists st2,
    getDesiredIndent (S fuel) st t = Ok (collapsedOffset d t + vA)%Qc st2 /\
    forall fuel', getDesiredIndent fuel' st2 anchor
                  = Ok (if decide (anchor = t) then (collapsedOffset d t + vA)%Qc else vA) st2.
Proof.
  intros Hc Hi Hl Hd Hf HA.
  rewrite (getDesiredIndent_descriptor_step fuel st t d anchor) by done.
  rewrite HA. unfold cache_and_return. eexists. split; [done|].
  intros fuel'. apply getDesiredIndent_hit. simpl.
  case_decide as Heq.
  - subst. by rewrite lookup_insert_eq.
  - rewrite lookup_insert_ne by done. by eapply getDesiredIndent_cached.
Qed.

(** The levels that the tokens of the examples resolve to, whatever the
    [force] flag of the declaration. *)
Lemma ignored_example_levels frc :
  (forall fuel,
     outcome (getDesiredIndent fuel (Examples.ignoredDeclared frc) Examples.tokA)
     = Returns (Qc_of_Z 2)) /\
  (forall fuel,
     outcome (getDesiredIndent fuel (Examples.ignoredDeclared frc) Examples.tokB)
     = Returns 0%Qc).
Proof.
  split; intros fuel.
  - rewrite getDesiredIndent_ignored; [|reflexivity | by vm_compute].
    simpl. f_equal. by apply Qc_is_canon.
  - rewrite (getDesiredIndent_no_anchor fuel _ Examples.tokB initialDescriptor);
      [|reflexivity | by vm_compute | reflexivity..].
    reflexivity.
Qed.

Lemma locked_example_levels frc :
  (forall fuel,
     outcome (getDesiredIndent (S fuel) (Examples.lockedDeclared frc) Examples.tokC)
     = Returns (Qc_of_Z 2)) /\
  (forall fuel,
     outcome (getDesiredIndent fuel (Examples.lockedDeclared frc) Examples.tokD)
     = Returns 0%Qc).
Proof.
  split; intros fuel.
  - rewrite (getDesiredIndent_locked_step fuel _ Examples.tokC Examples.tokB Examples.tokA);
      [|reflexivity | by vm_compute | reflexivity..].
    rewrite (getDesiredIndent_no_anchor fuel _ Examples.tokA initialDescriptor);
      [|reflexivity | by vm_compute | reflexivity..].
    simpl. f_equal. by apply Qc_is_canon.
  - rewrite (getDesiredIndent_no_anchor fuel _ Examples.tokD initialDescriptor);
      [|reflexivity | by vm_compute | reflexivity..].
    reflexivity.
Qed.

Lemma cached_example_levels frc :
  (forall fuel,
     outcome (getDesiredIndent fuel (Examples.cachedDeclared frc) Examples.tokC)
     = Returns 0%Qc) /\
  (forall fuel,
     outcome (getDesiredIndent (S fuel) (Examples.cachedDeclared frc) Examples.tokD)
     = Returns 1%Qc).
Proof.
  split; intros fuel.
  - by rewrite (getDesiredIndent_hit fuel _ Examples.tokC (0 + 0)%Qc).
  - rewrite (getDesiredIndent_descriptor_step fuel _ Examples.tokD
               {| offset := 1%Qc; from := Some Examples.tokA; force := None |}
               Examples.tokA);
      [|reflexivity | by vm_compute | reflexivity..].
    rewrite (getDesiredIndent_no_anchor fuel _ Examples.tokA initialDescriptor);
      [|reflexivity | by vm_compute | reflexivity..].
    reflexivity.
Qed.

(** C3 (same-line collapse, as the code has it).  After
    [setDesiredOffsets(R, A, 1)] with a falsy [force], a token [t] that
    starts in [R], is governed by the new descriptor, starts on the line of
    [A], and is neither ignored, nor alignment-locked, nor in the cache
    already, resolves to the value of [A]; [A] resolves to that value
    afterwards too. *)
Theorem C3_same_line_collapse st range anchor frc t fuel vA stA :
  let st' := setDesiredOffsets st range (Some anchor) 1%Qc frc in
  truthy frc = false ->
  in_range range (range_0 t) ->
  _getOffsetDescriptor st' t = Some {| offset := 1%Qc; from := Some anchor; force := frc |} ->
  loc_start_line t = loc_start_line anchor ->
  _desiredIndentCache st' !! t = None ->
  t ∉ _ignoredTokens st' ->
  _lockedFirstTokens st' !! t = None ->
  getDesiredIndent fuel st' anchor = Ok vA stA ->
  exists st2,
    getDesiredIndent (S fuel) st' t = Ok vA st2 /\
    forall fuel', getDesiredIndent fuel' st2 anchor = Ok vA st2.
Proof.
  intros st' Hfrc _ Hd Hline Hc Hi Hl HA.
  destruct (getDesiredIndent_through_anchor fuel st' t _ anchor vA stA Hc Hi Hl Hd eq_refl HA)
    as (st2 & Ht & HA2).
  assert (collapsedOffset {| offset := 1%Qc; from := Some anchor; force := frc |} t + vA
          = vA)%Qc as Hv.
  { unfold collapsedOffset. simpl. rewrite Hline, Z.eqb_refl, Hfrc. simpl.
    apply Qcplus_0_l. }
  rewrite Hv in Ht, HA2. exists st2. split; [done|].
  intros fuel'. rewrite HA2. by case_decide.
Qed.

Lemma C3_same_line_collapse_witness :
  exists st2,
    getDesiredIndent 1 (Examples.declared None) Examples.tokA = Ok (0 + 0)%Qc st2 /\
    forall fuel', getDesiredIndent fuel' st2 Examples.tokB = Ok (0 + 0)%Qc st2.
Proof.
  apply (C3_same_line_collapse Examples.fresh (0, 4) Examples.tokB None Examples.tokA 0
           (0 + 0)%Qc
           (with_cache (Examples.declared None) {[ Examples.tokB := (0 + 0)%Qc ]})).
  - reflexivity.
  - unfold in_range. simpl. lia.
  - reflexivity.
  - reflexivity.
  - reflexivity.
  - simpl. set_solver.
  - reflexivity.
  - reflexivity.
Defined.

(** Three inputs at which C3 fails as stated: the token starts in the range,
    is governed by the new descriptor and shares the line of the anchor, yet
    - ignored, [a] resolves to its actual indentation, 2, and the anchor [b]
      to 0;
    - locked to the column of [b], [c] resolves to 2, and the anchor [d] to 0;
    - queried before the declaration, [c] keeps its cached 0, and the anchor
      [d] resolves to 1. *)
Lemma C3_counterexample :
  (let st' := Examples.ignoredDeclared None in
   in_range (0, 4) (range_0 Examples.tokA) /\
   _getOffsetDescriptor st' Examples.tokA
     = Some {| offset := 1%Qc; from := Some Examples.tokB; force := None |} /\
   loc_start_line Examples.tokA = loc_start_line Examples.tokB /\
   (forall fuel, outcome (getDesiredIndent fuel st' Examples.tokA) = Returns (Qc_of_Z 2)) /\
   (forall fuel, outcome (getDesiredIndent fuel st' Examples.tokB) = Returns 0%Qc) /\
   Qc_of_Z 2 <> 0%Qc) /\
  (let st' := Examples.lockedDeclared None in
   in_range (6, 10) (range_0 Examples.tokC) /\
   _getOffsetDescriptor st' Examples.tokC
     = Some {| offset := 1%Qc; from := Some Examples.tokD; force := None |} /\
   loc_start_line Examples.tokC = loc_start_line Examples.tokD /\
   (forall fuel, outcome (getDesiredIndent (S fuel) st' Examples.tokC) = Returns (Qc_of_Z 2)) /\
   (forall fuel, outcome (getDesiredIndent fuel st' Examples.tokD) = Returns 0%Qc) /\
   Qc_of_Z 2 <> 0%Qc) /\
  (let st' := Examples.cachedDeclared None in
   in_range (6, 10) (range_0 Examples.tokC) /\
   _getOffsetDescriptor st' Examples.tokC
     = Some {| offset := 1%Qc; from := Some Examples.tokD; force := None |} /\
   loc_start_line Examples.tokC = loc_start_line Examples.tokD /\
   (forall fuel, outcome (getDesiredIndent fuel st' Examples.tokC) = Returns 0%Qc) /\
   (forall fuel, outcome (getDesiredIndent (S fuel) st' Examples.tokD) = Returns 1%Qc) /\
   0%Qc <> 1%Qc).
Proof.
  split; [|split].
  - destruct (ignored_example_levels (None)) as [Ht Ha].
    intros st'. split; [unfold in_range; simpl; lia|].
    split; [reflexivity|]. split; [reflexivity|]. split; [exact Ht|]. split; [exact Ha|].
    intros H. apply (f_equal this) in H. vm_compute in H. discriminate H.
  - destruct (locked_example_levels (None)) as [Ht Ha].
    intros st'. split; [unfold in_range; simpl; lia|].
    split; [reflexivity|]. split; [reflexivity|]. split; [exact Ht|]. split; [exact Ha|].
    intros H. apply (f_equal this) in H. vm_compute in H. discriminate H.
  - destruct (cached_example_levels (None)) as [Ht Ha].
    intros st'. split; [unfold in_range; simpl; lia|].
    split; [reflexivity|]. split; [reflexivity|]. split; [exact Ht|]. split; [exact Ha|].
    intros H. apply (f_equal this) in H. vm_compute in H. discriminate H.
Qed.

(** C4 (forced offsets, as the code has it).  After
    [setDesiredOffsets(R, A, 1, true)], a token [t] that starts in [R], is
    governed by the new descriptor, starts on the line of [A], and is
    neither ignored, nor alignment-locked, nor in the cache already, resolves
    to the value of [A] plus 1. *)
Theorem C4_forced_no_collapse st range anchor t fuel vA stA :
  let st' := setDesiredOffsets st range (Some anchor) 1%Qc (Some true) in
  in_range range (range_0 t) ->
  _getOffsetDescriptor st' t
    = Some {| offset := 1%Qc; from := Some anchor; force := Some true |} ->
  loc_start_line t = loc_start_line anchor ->
  _desiredIndentCache st' !! t = None ->
  t ∉ _ignoredTokens st' ->
  _lockedFirstTokens st' !! t = None ->
  getDesiredIndent fuel st' anchor = Ok vA stA ->
  exists st2, getDesiredIndent (S fuel) st' t = Ok (vA + 1)%Qc st2.
Proof.
  intros st' _ Hd Hline Hc Hi Hl HA.
  destruct (getDesiredIndent_through_anchor fuel st' t _ anchor vA stA Hc Hi Hl Hd eq_refl HA)
    as (st2 & Ht & _).
  assert (collapsedOffset {| offset := 1%Qc; from := Some anchor; force := Some true |} t + vA
          = vA + 1)%Qc as Hv.
  { unfold collapsedOffset. simpl. rewrite andb_false_r. apply Qcplus_comm. }
  rewrite Hv in Ht. eauto.
Qed.

Lemma C4_forced_no_collapse_witness :
  exists st2,
    getDesiredIndent 1 (Examples.declared (Some true)) Examples.tokA
    = Ok (0 + 0 + 1)%Qc st2.
Proof.
  apply (C4_forced_no_collapse Examples.fresh (0, 4) Examples.tokB Examples.tokA 0
           (0 + 0)%Qc
           (with_cache (Examples.declared (Some true)) {[ Examples.tokB := (0 + 0)%Qc ]})).
  - unfold in_range. simpl. lia.
  - reflexivity.
  - reflexivity.
  - reflexivity.
  - simpl. set_solver.
  - reflexivity.
  - reflexivity.
Defined.

(** Three inputs at which C4 fails as stated: the token starts in the range,
    is governed by the forced descriptor and shares the line of the anchor,
    yet
    - ignored, [a] resolves to 2, and the anchor [b] to 0, not to 1;
    - locked to the column of [b], [c] resolves to 2, and the anchor [d] to 0;
    - queried before the declaration, [c] keeps its cached 0, and the anchor
      [d] resolves to 1. *)
Lemma C4_counterexample :
  (let st' := Examples.ignoredDeclared (Some true) in
   in_range (0, 4) (range_0 Examples.tokA) /\
   _getOffsetDescriptor st' Examples.tokA
     = Some {| offset := 1%Qc; from := Some Examples.tokB; force := (Some true) |} /\
   loc_start_line Examples.tokA = loc_start_line Examples.tokB /\
   (forall fuel, outcome (getDesiredIndent fuel st' Examples.tokA) = Returns (Qc_of_Z 2)) /\
   (forall fuel, outcome (getDesiredIndent fuel st' Examples.tokB) = Returns 0%Qc) /\
   Qc_of_Z 2 <> (0 + 1)%Qc) /\
  (let st' := Examples.lockedDeclared (Some true) in
   in_range (6, 10) (range_0 Examples.tokC) /\
   _getOffsetDescriptor st' Examples.tokC
     = Some {| offset := 1%Qc; from := Some Examples.tokD; force := (Some true) |} /\
   loc_start_line Examples.tokC = loc_start_line Examples.tokD /\
   (forall fuel, outcome (getDesiredIndent (S fuel) st' Examples.tokC) = Returns (Qc_of_Z 2)) /\
   (forall fuel, outcome (getDesiredIndent fuel st' Examples.tokD) = Returns 0%Qc) /\
   Qc_of_Z 2 <> (0 + 1)%Qc) /\
  (let st' := Examples.cachedDeclared (Some true) in
   in_range (6, 10) (range_0 Examples.tokC) /\
   _getOffsetDescriptor st' Examples.tokC
     = Some {| offset := 1%Qc; from := Some Examples.tokD; force := (Some true) |} /\
   loc_start_line Examples.tokC = loc_start_line Examples.tokD /\
   (forall fuel, outcome (getDesiredIndent fuel st' Examples.tokC) = Returns 0%Qc) /\
   (forall fuel, outcome (getDesiredIndent (S fuel) st' Examples.tokD) = Returns 1%Qc) /\
   0%Qc <> (1 + 1)%Qc).
Proof.
  split; [|split].
  - destruct (ignored_example_levels ((Some true))) as [Ht Ha].
    intros st'. split; [unfold in_range; simpl; lia|].
    split; [reflexivity|]. split; [reflexivity|]. split; [exact Ht|]. split; [exact Ha|].
    intros H. apply (f_equal this) in H. vm_compute in H. discriminate H.
  - destruct (locked_example_levels ((Some true))) as [Ht Ha].
    intros st'. split; [unfold in_range; simpl; lia|].
    split; [reflexivity|]. split; [reflexivity|]. split; [exact Ht|]. split; [exact Ha|].
    intros H. apply (f_equal this) in H. vm_compute in H. discriminate H.
  - destruct (cached_example_levels ((Some true))) as [Ht Ha].
    intros st'. split; [unfold in_range; simpl; lia|].
    split; [reflexivity|]. split; [reflexivity|]. split; [exact Ht|]. split; [exact Ha|].
    intros H. apply (f_equal this) in H. vm_compute in H. discriminate H.
Qed.

(** ** Termination of the resolution *)

(** C9 (termination, as the code has it).  When the dependency chain that
    the resolution follows from [t] never revisits a token (the chain goes
    from a token to the anchor of its governing descriptor or, for an
    alignment-locked token, to the first token of the line of its lock base),
    [getDesiredIndent(t)] terminates: with a depth of at least the number of
    dependency targets of the storage it returns a value or throws. *)
Theorem C9_termination st t fuel :
  never_revisits st t ->
  (length (dependencyTargets st) <= fuel)%nat ->
  outcome (getDesiredIndent fuel st t) <> Diverges.
Proof.
  intros Hnr Hfuel Hdiv.
  apply (getDesiredIndent_terminates fuel st t Hnr Hfuel).
  by destruct (getDesiredIndent fuel st t).
Qed.

Lemma C9_termination_witness :
  outcome (getDesiredIndent 2 Examples.nested Examples.tokY) <> Diverges.
Proof.
  apply (C9_termination Examples.nested Examples.tokY 2).
  - intros i j u Hij Hi Hj. destruct j as [|[|j]].
    + lia.
    + assert (i = 0%nat) as -> by lia. vm_compute in Hi, Hj. congruence.
    + vm_compute in Hj. discriminate Hj.
  - vm_compute. lia.
Defined.

(** The chain of descriptors' from-tokens of C9 leaves the alignment locks
    out: from [b] it stops at once, since the descriptor of [b] has no
    anchor, yet [b] is locked to the column of [a], whose line opens with
    [f], and [f] is offset from [b]: the resolution of [b] never returns. *)
Lemma C9_counterexample :
  anchors_never_revisit Examples.locked Examples.tokB2 /\
  forall fuel, outcome (getDesiredIndent fuel Examples.locked Examples.tokB2) = Diverges.
Proof.
  split.
  - intros i j u Hij Hi Hj. destruct j as [|j]; [lia|].
    vm_compute in Hj. discriminate Hj.
  - assert (forall fuel,
      getDesiredIndent fuel Examples.locked Examples.tokB2 = OutOfFuel /\
      getDesiredIndent fuel Examples.locked Examples.tokF = OutOfFuel) as H.
    { induction fuel as [|n [IHb IHf]]; [by split|]. split.
      - rewrite (getDesiredIndent_locked_step n Examples.locked Examples.tokB2
                   Examples.tokA1 Examples.tokF);
          [|reflexivity | by vm_compute | reflexivity..].
        by rewrite IHf.
      - rewrite (getDesiredIndent_descriptor_step n Examples.locked Examples.tokF
                   {| offset := 1%Qc; from := Some Examples.tokB2; force := None |}
                   Examples.tokB2);
          [|reflexivity | by vm_compute | reflexivity..].
        by rewrite IHb. }
    intros fuel. by rewrite (proj1 (H fuel)).
Qed.

(** Without alignment locks the dependency chain is a prefix of the chain of
    descriptors' from-tokens, and the resolution terminates when the latter
    never revisits a token. *)
Lemma dependency_without_locks st t u :
  _lockedFirstTokens st = ∅ -> dependency st t = Some u -> anchorOf st t = Some u.
Proof.
  unfold dependency, anchorOf. intros Hl. rewrite Hl, lookup_empty.
  destruct (_desiredIndentCache st !! t); [done|]. by destruct (bool_decide _).
Qed.

Lemma chain_without_locks st t i u :
  _lockedFirstTokens st = ∅ -> chain st t i = Some u -> anchorChain st t i = Some u.
Proof.
  intros Hl. revert t. induction i as [|i IH]; intros t; simpl; [done|].
  destruct (dependency st t) as [w|] eqn:E; [|done].
  rewrite (dependency_without_locks st t w Hl E). apply IH.
Qed.

Lemma termination_without_locks st t fuel :
  _lockedFirstTokens st = ∅ ->
  anchors_never_revisit st t ->
  (length (dependencyTargets st) <= fuel)%nat ->
  outcome (getDesiredIndent fuel st t) <> Diverges.
Proof.
  intros Hl Hnr Hfuel Hdiv.
  apply (getDesiredIndent_terminates fuel st t); [|done|].
  - intros i j u Hij Hi Hj. apply (Hnr i j u Hij); by apply chain_without_locks.
  - by destruct (getDesiredIndent fuel st t).
Qed.

(** ** Ignored tokens and the reporting pass *)






(** C7 (an ignored token resolves to its actual indentation over the indent
    size, so that its line is never reported) at the source [var a], newline,
    tab, [= 1;] with the default options.  The token [=] is the first of
    line 2 and [ignoreToken] puts it in the ignore set; [getDesiredIndent]
    returns the length of its indentation over the indent size, 1/4; but
    [validateTokenIndent] compares the tab with one space, and the reporting
    pass reports the line. *)
Theorem C7_ignored_token_reported :
  isFirstTokenOfLine (_tokenInfo Examples.ignoredEq) Examples.tokEq = true /\
  Examples.tokEq ∈ _ignoredTokens Examples.ignoredEq /\
  getTokenIndent (_tokenInfo Examples.ignoredEq) Examples.tokEq = String "009"%char "" /\
  (forall fuel,
     outcome (getDesiredIndent fuel Examples.ignoredEq Examples.tokEq)
     = Returns (Qc_of_Z 1 / Qc_of_Z 4)%Qc) /\
  validateTokenIndent Space 4 (_tokenInfo Examples.ignoredEq) Examples.tokEq
    (Qc_of_Z 1 / Qc_of_Z 4)%Qc = Some false /\
  forall fuel, exists st',
    checkLine Space (fun _ => false) (fun _ => None) (fun _ => None) None
      fuel Examples.ignoredEq 2
    = LineReport Examples.tokEq (Qc_of_Z 1 / Qc_of_Z 4)%Qc st'.
Proof.
  split; [reflexivity|]. split; [by vm_compute|]. split; [reflexivity|].
  assert (forall fuel, getDesiredIndent fuel Examples.ignoredEq Examples.tokEq
    = cache_and_return Examples.ignoredEq Examples.tokEq (Qc_of_Z 1 / Qc_of_Z 4)%Qc) as Hq.
  { intros fuel. by rewrite getDesiredIndent_ignored; [|reflexivity | by vm_compute]. }
  split; [intros fuel; by rewrite Hq|]. split; [reflexivity|].
  intros fuel. unfold checkLine, validateAgainst, reportToken.
  change (firstTokensByLineNumber (_tokenInfo Examples.ignoredEq) !! 2)
    with (Some Examples.tokEq).
  cbv iota beta. change (loc_start_line Examples.tokEq =? 2) with true. cbv iota beta.
  simpl negb. cbv iota. rewrite Hq. unfold cache_and_return. cbv iota beta.
  change (validateTokenIndent Space (_indentSize Examples.ignoredEq)
            (_tokenInfo Examples.ignoredEq) Examples.tokEq (Qc_of_Z 1 / Qc_of_Z 4)%Qc)
    with (Some false).
  cbv iota beta.
  rewrite (getDesiredIndent_hit fuel _ Examples.tokEq (Qc_of_Z 1 / Qc_of_Z 4)%Qc);
    [eauto|]. simpl. apply lookup_insert_eq.
Qed.

(** * Further properties of the search tree *)

Lemma ge_head s (t : BST.Tree) :
  match BST.ge s t with
  | [] => True
  | (k, _) :: _ => s <= k
  end.
Proof.
  induction t as [|[k v] r IH]; simpl; [done|].
  destruct (Z.leb_spec0 s k); [done|]. exact IH.
Qed.

(** X1 (read after write).  On a tree with strictly increasing keys,
    [findLe(key)] after [insert(key, value)] returns the node
    [(key, value)], the key is found with the inserted value, and every other
    key is found as before. *)
Theorem X1_insert_then_findLe key value t :
  BST.sorted t ->
  BST.findLe key (BST.insert key value t) = Some (key, value) /\
  BST.lookup key (BST.insert key value t) = Some value /\
  forall k, k <> key -> BST.lookup k (BST.insert key value t) = BST.lookup k t.
Proof.
  intros Hs. split; [|split].
  - apply findLe_Some; [by apply sorted_insert|].
    split; [|split; [lia|intros k' ?; lia]].
    rewrite lookup_tree_insert. by rewrite decide_True.
  - rewrite lookup_tree_insert. by rewrite decide_True.
  - intros k Hk. rewrite lookup_tree_insert. by rewrite decide_False.
Qed.

Lemma X1_insert_then_findLe_witness :
  BST.findLe 5 (BST.insert 5 None [(0, Some initialDescriptor); (9, None)]) = Some (5, None) /\
  BST.lookup 5 (BST.insert 5 None [(0, Some initialDescriptor); (9, None)]) = Some None /\
  forall k, k <> 5 ->
    BST.lookup k (BST.insert 5 None [(0, Some initialDescriptor); (9, None)])
    = BST.lookup k [(0, Some initialDescriptor); (9, None)].
Proof.
  apply (X1_insert_then_findLe 5 None [(0, Some initialDescriptor); (9, None)]).
  unfold BST.sorted. simpl. repeat constructor; lia.
Defined.

(** X2 (insert is an upsert).  [insert(key, value)] keeps the keys strictly
    increasing, so no key occurs twice; the keys afterwards are the keys
    before and [key]; and when [key] is in the tree already, no node is
    added: the sequence of keys is the same. *)
Theorem X2_insert_upsert key value t :
  BST.sorted t ->
  BST.sorted (BST.insert key value t) /\
  (forall k, k ∈ BST.keys (BST.insert key value t) <-> k = key \/ k ∈ BST.keys t) /\
  (key ∈ BST.keys t -> BST.keys (BST.insert key value t) = BST.keys t).
Proof.
  intros Hs. split; [by apply sorted_insert|]. split; [intros k; apply keys_insert|].
  intros Hin. unfold BST.insert.
  destruct (BST.lookup key t) eqn:E; [apply keys_update|].
  by apply lookup_None_keys in E.
Qed.

Lemma X2_insert_upsert_witness :
  BST.sorted (BST.insert 9 None [(0, Some initialDescriptor); (9, None)]) /\
  (forall k, k ∈ BST.keys (BST.insert 9 None [(0, Some initialDescriptor); (9, None)])
             <-> k = 9 \/ k ∈ BST.keys [(0, Some initialDescriptor); (9, None)]) /\
  (9 ∈ BST.keys [(0, Some initialDescriptor); (9, None)] ->
   BST.keys (BST.insert 9 None [(0, Some initialDescriptor); (9, None)])
   = BST.keys [(0, Some initialDescriptor); (9, None)]).
Proof.
  apply (X2_insert_upsert 9 None [(0, Some initialDescriptor); (9, None)]).
  unfold BST.sorted. simpl. repeat constructor; lia.
Defined.

(** X3 ([findLe] returns the greatest key below).  On a tree with strictly
    increasing keys, [findLe(key)] returns a node of the tree whose key is
    [<= key] and is the largest such key; it returns the undefined entry
    exactly when every key of the tree is greater than [key]. *)
Theorem X3_findLe_greatest_key_below key t :
  BST.sorted t ->
  match BST.findLe key t with
  | Some (k, v) =>
      BST.lookup k t = Some v /\ k <= key /\
      forall k', k' ∈ BST.keys t -> k' <= key -> k' <= k
  | None => forall k', k' ∈ BST.keys t -> key < k'
  end.
Proof.
  intros Hs. destruct (BST.findLe key t) as [[k v]|] eqn:E.
  - apply findLe_Some in E as (Hl & Hle & Hnone); [|done].
    split; [done|]. split; [done|]. intros k' Hin Hk'.
    destruct (Z.le_gt_cases k' k) as [|Hgt]; [done|].
    specialize (Hnone k' (conj Hgt Hk')). by apply lookup_None_keys in Hnone.
  - intros k' Hin. destruct (Z.lt_ge_cases key k') as [|Hle]; [done|].
    pose proof (proj1 (findLe_None key t Hs) E k' Hle) as Hnone.
    by apply lookup_None_keys in Hnone.
Qed.

Lemma X3_findLe_greatest_key_below_witness :
  match BST.findLe 7 [(0, Some initialDescriptor); (9, None)] with
  | Some (k, v) =>
      BST.lookup k [(0, Some initialDescriptor); (9, None)] = Some v /\ k <= 7 /\
      forall k', k' ∈ BST.keys [(0, Some initialDescriptor); (9, None)] -> k' <= 7 -> k' <= k
  | None => forall k', k' ∈ BST.keys [(0, Some initialDescriptor); (9, None)] -> 7 < k'
  end.
Proof.
  apply (X3_findLe_greatest_key_below 7 [(0, Some initialDescriptor); (9, None)]).
  unfold BST.sorted. simpl. repeat constructor; lia.
Defined.

(** X4 ([deleteRange] removes the keys of the interval and no other).  On a
    tree with strictly increasing keys, after [deleteRange(start, end)] a key
    is found exactly when it was found before and lies outside
    [[start, end)], with the value it had; the keys stay strictly
    increasing. *)
Theorem X4_deleteRange_removes_interval start end_ t :
  BST.sorted t ->
  BST.sorted (BST.deleteRange start end_ t) /\
  forall k,
    BST.lookup k (BST.deleteRange start end_ t)
    = if decide (start <= k < end_) then None else BST.lookup k t.
Proof.
  intros Hs. split; [by apply sorted_deleteRange|].
  intros k. by apply lookup_deleteRange.
Qed.

Lemma X4_deleteRange_removes_interval_witness :
  BST.sorted (BST.deleteRange 3 9 [(0, Some initialDescriptor); (4, None); (9, None)]) /\
  forall k,
    BST.lookup k (BST.deleteRange 3 9 [(0, Some initialDescriptor); (4, None); (9, None)])
    = if decide (3 <= k < 9) then None
      else BST.lookup k [(0, Some initialDescriptor); (4, None); (9, None)].
Proof.
  apply (X4_deleteRange_removes_interval 3 9
           [(0, Some initialDescriptor); (4, None); (9, None)]).
  unfold BST.sorted. simpl. repeat constructor; lia.
Defined.

(** X5 ([deleteRange] on an empty interval).  When [end <= start], as in the
    call [deleteRange(range[0] + 1, range[1])] that [setDesiredOffsets] makes
    for a range of width zero or one, [deleteRange(start, end)] removes
    nothing, whatever the tree holds. *)
Theorem X5_deleteRange_empty_interval start end_ t :
  end_ <= start -> BST.deleteRange start end_ t = t.
Proof.
  intros Hle. unfold BST.deleteRange. destruct (start =? end_); [done|].
  pose proof (ge_head start t) as Hh.
  destruct (BST.ge start t) as [|[k v] next]; [done|]. simpl.
  by destruct (Z.ltb_spec0 k end_); [lia|].
Qed.

Lemma X5_deleteRange_empty_interval_witness :
  BST.deleteRange 5 4 [(0, Some initialDescriptor); (4, None); (9, None)]
  = [(0, Some initialDescriptor); (4, None); (9, None)].
Proof.
  apply (X5_deleteRange_empty_interval 5 4
           [(0, Some initialDescriptor); (4, None); (9, None)]).
  lia.
Defined.

(** * Further properties of the declarations *)

(** X6 (a declaration governs its range).  After
    [setDesiredOffsets(range, fromToken, offset, force)], a token that starts
    in [[range[0], range[1])] has the declared descriptor, unless
    [fromToken] lies wholly inside the range and is empty or spans the start
    of the token. *)
Theorem X6_setDesiredOffsets_governs_range st range fromToken off frc t :
  BST.sorted (_tree st) ->
  in_range range (range_0 t) ->
  (forall f, fromToken = Some f ->
     range.1 <= range_0 f -> range_1 f <= range.2 ->
     range_0 f < range_1 f /\ ~ (range_0 f <= range_0 t < range_1 f)) ->
  _getOffsetDescriptor (setDesiredOffsets st range fromToken off frc) t
  = Some {| offset := off; from := fromToken; force := frc |}.
Proof.
  intros Hs Hin Hf. unfold _getOffsetDescriptor, setDesiredOffsets. simpl.
  apply findLe_inside_setDesiredOffsets_tree; [done|done|].
  destruct fromToken as [f|]; [|done].
  intros [? ?]%fromTokenIsInRange_Some. by apply Hf.
Qed.

Lemma X6_setDesiredOffsets_governs_range_witness :
  _getOffsetDescriptor
    (setDesiredOffsets Examples.fresh (2, 6) (Some Examples.tokA) 1%Qc None) Examples.tokB
  = Some {| offset := 1%Qc; from := Some Examples.tokA; force := None |}.
Proof.
  apply (X6_setDesiredOffsets_governs_range Examples.fresh (2, 6) (Some Examples.tokA)
           1%Qc None Examples.tokB).
  - unfold BST.sorted. simpl. repeat constructor.
  - unfold in_range. simpl. lia.
  - intros f [= <-]. simpl. lia.
Defined.

(** X7 (frame below the range).  For a range [[a, b]] with [a <= b] and an
    anchor that does not end before it starts, [setDesiredOffsets] leaves the
    node that [findLe(p)] returns unchanged at every [p < a]. *)
Theorem X7_setDesiredOffsets_frame_below st range fromToken off frc p :
  BST.sorted (_tree st) -> wf_range range -> wf_anchor fromToken -> p < range.1 ->
  BST.findLe p (_tree (setDesiredOffsets st range fromToken off frc))
  = BST.findLe p (_tree st).
Proof.
  intros Hs Hr Ha Hp. simpl. by apply findLe_below_setDesiredOffsets_tree.
Qed.

Lemma X7_setDesiredOffsets_frame_below_witness :
  BST.findLe 1 (_tree (setDesiredOffsets Examples.fresh (2, 6) (Some Examples.tokA) 1%Qc None))
  = BST.findLe 1 (_tree Examples.fresh).
Proof.
  apply (X7_setDesiredOffsets_frame_below Examples.fresh (2, 6) (Some Examples.tokA)
           1%Qc None 1).
  - unfold BST.sorted. simpl. repeat constructor.
  - unfold wf_range. simpl. lia.
  - simpl. lia.
  - simpl. lia.
Defined.

(** X8 (a declaration on an empty range).  [setDesiredOffsets] on a range
    [[a, a]], with an anchor that does not end before it starts, changes the
    descriptor of no position: the descriptor that [findLe(p)] returns is the
    same before and after, for every [p]. *)
Theorem X8_setDesiredOffsets_empty_range st a fromToken off frc p :
  BST.sorted (_tree st) -> wf_anchor fromToken ->
  BST.value (BST.findLe p (_tree (setDesiredOffsets st (a, a) fromToken off frc)))
  = BST.value (BST.findLe p (_tree st)).
Proof.
  intros Hs Ha. simpl.
  apply findLe_outside_setDesiredOffsets_tree; [done| |done|].
  - unfold wf_range. simpl. lia.
  - unfold in_range. simpl. lia.
Qed.

Lemma X8_setDesiredOffsets_empty_range_witness :
  BST.value (BST.findLe 4
    (_tree (setDesiredOffsets Examples.fresh (4, 4) (Some Examples.tokA) 1%Qc None)))
  = BST.value (BST.findLe 4 (_tree Examples.fresh)).
Proof.
  apply (X8_setDesiredOffsets_empty_range Examples.fresh 4 (Some Examples.tokA) 1%Qc None 4).
  - unfold BST.sorted. simpl. repeat constructor.
  - simpl. lia.
Defined.

(** * Further properties of the queries *)

(** A query that gives an answer within the depth [n] gives the same answer
    within any larger depth. *)
Lemma getDesiredIndent_body_mono self1 self2 st t :
  (forall u, self1 u <> OutOfFuel -> self2 u = self1 u) ->
  getDesiredIndent_body self1 st t <> OutOfFuel ->
  getDesiredIndent_body self2 st t = getDesiredIndent_body self1 st t.
Proof.
  intros Hself. unfold getDesiredIndent_body.
  destruct (_desiredIndentCache st !! t); [done|].
  case_bool_decide; [done|].
  destruct (_lockedFirstTokens st !! t) as [firstToken|].
  - destruct (getFirstTokenOfLine (_tokenInfo st) firstToken) as [lineToken|]; [|done].
    destruct (self1 lineToken) eqn:E; intros Hne;
      [rewrite (Hself lineToken), E by (by rewrite E) ..|]; done.
  - destruct (_getOffsetDescriptor st t) as [d|]; [|done].
    destruct (from d) as [f|]; [|done].
    destruct (self1 f) eqn:E; intros Hne;
      [rewrite (Hself f), E by (by rewrite E) ..|]; done.
Qed.

Lemma getDesiredIndent_fuel_S n st t :
  getDesiredIndent n st t <> OutOfFuel ->
  getDesiredIndent (S n) st t = getDesiredIndent n st t.
Proof.
  revert t. induction n as [|n IH]; intros t; rewrite !getDesiredIndent_unfold;
    apply getDesiredIndent_body_mono; [done|].
  intros u. apply IH.
Qed.

Lemma getDesiredIndent_fuel_le n m st t :
  (n <= m)%nat -> getDesiredIndent n st t <> OutOfFuel ->
  getDesiredIndent m st t = getDesiredIndent n st t.
Proof.
  intros Hle Hne. induction Hle as [|m Hle IH]; [done|].
  rewrite getDesiredIndent_fuel_S; [done|]. by rewrite IH.
Qed.

Lemma answers_of_refl st : answers_of st st.
Proof.
  split; [apply extends_cache_refl|].
  intros u x Hu. exists 0%nat, st. by apply getDesiredIndent_hit.
Qed.

Lemma getDesiredIndent_body_shape self st t v st' :
  getDesiredIndent_body self st t = Ok v st' ->
  st' = st \/
  exists s0, st' = with_cache s0 (<[t := v]> (_desiredIndentCache s0)) /\
             (s0 = st \/ exists u v0, self u = Ok v0 s0).
Proof.
  unfold getDesiredIndent_body, cache_and_return.
  destruct (_desiredIndentCache st !! t); [intros [= _ <-]; by left|].
  case_bool_decide; [intros [= <- <-]; right; eauto|].
  destruct (_lockedFirstTokens st !! t) as [firstToken|].
  - destruct (getFirstTokenOfLine (_tokenInfo st) firstToken) as [lineToken|]; [|done].
    destruct (self lineToken) as [v0 s0| |] eqn:E; [|done..].
    intros [= <- <-]. right. eauto 6.
  - destruct (_getOffsetDescriptor st t) as [d|]; [|done].
    destruct (from d) as [f|].
    + destruct (self f) as [v0 s0| |] eqn:E; [|done..].
      intros [= <- <-]. right. eauto 6.
    + intros [= <- <-]. right. eauto.
Qed.

Lemma getDesiredIndent_answers_of fuel st t v st' :
  getDesiredIndent fuel st t = Ok v st' -> answers_of st st'.
Proof.
  revert t v st'. induction fuel as [|n IH]; intros t v st' H;
    pose proof (getDesiredIndent_extends _ _ _ _ _ H) as Hext;
    pose proof H as Hshape; rewrite getDesiredIndent_unfold in Hshape;
    apply getDesiredIndent_body_shape in Hshape as [->|(s0 & -> & Hs0)];
    try apply answers_of_refl.
  - split; [done|]. intros u x. simpl.
    destruct (decide (u = t)) as [->|Hne].
    + rewrite lookup_insert_eq. intros [= <-]. eauto.
    + rewrite lookup_insert_ne by done. intros Hu.
      destruct Hs0 as [->|(? & ? & [=])]. exists 0%nat, st. by apply getDesiredIndent_hit.
  - split; [done|]. intros u x. simpl.
    destruct (decide (u = t)) as [->|Hne].
    + rewrite lookup_insert_eq. intros [= <-]. eauto.
    + rewrite lookup_insert_ne by done. intros Hu.
      destruct Hs0 as [->|(w & v0 & Hw)].
      * exists 0%nat, st. by apply getDesiredIndent_hit.
      * apply IH in Hw as [_ Hw]. by apply Hw.
Qed.

Lemma getDesiredIndent_body_transparent self self' st st' t :
  extends_cache st st' ->
  (forall u, self u <> OutOfFuel -> outcome (self' u) = outcome (self u)) ->
  (forall x, _desiredIndentCache st' !! t = Some x ->
     outcome (getDesiredIndent_body self st t) = Returns x) ->
  getDesiredIndent_body self st t <> OutOfFuel ->
  outcome (getDesiredIndent_body self' st' t) = outcome (getDesiredIndent_body self st t).
Proof.
  intros (Hti & Hsz & Htr & Hlk & Hig & Hc) Hself Hhit.
  destruct (_desiredIndentCache st' !! t) as [x|] eqn:E'.
  { intros _. rewrite (Hhit x eq_refl).
    unfold getDesiredIndent_body. by rewrite E'. }
  clear Hhit. unfold getDesiredIndent_body, _getOffsetDescriptor, cache_and_return.
  rewrite E', Hti, Hsz, Htr, Hlk, Hig.
  destruct (_desiredIndentCache st !! t) as [x|] eqn:E.
  { apply Hc in E. congruence. }
  case_bool_decide; [done|].
  destruct (_lockedFirstTokens st !! t) as [firstToken|].
  - destruct (getFirstTokenOfLine (_tokenInfo st) firstToken) as [lineToken|]; [|done].
    specialize (Hself lineToken).
    destruct (self lineToken) as [v0 s0| |]; intros Hne; [| |done];
      specialize (Hself ltac:(done));
      destruct (self' lineToken); simpl in Hself; by simplify_eq.
  - destruct (BST.value (BST.findLe (range_0 t) (_tree st))) as [d|]; [|done].
    destruct (from d) as [f|]; [|done].
    specialize (Hself f).
    destruct (self f) as [v0 s0| |]; intros Hne; [| |done];
      specialize (Hself ltac:(done));
      destruct (self' f); simpl in Hself; by simplify_eq.
Qed.

Lemma getDesiredIndent_transparent st st' :
  answers_of st st' ->
  forall m u, getDesiredIndent m st u <> OutOfFuel ->
    outcome (getDesiredIndent m st' u) = outcome (getDesiredIndent m st u).
Proof.
  intros [Hext Hans] m.
  assert (forall m u x, getDesiredIndent m st u <> OutOfFuel ->
            _desiredIndentCache st' !! u = Some x ->
            outcome (getDesiredIndent m st u) = Returns x) as Hhit.
  { intros k u x Hne (n & s & Hn)%Hans.
    rewrite <- (getDesiredIndent_fuel_le k (Nat.max n k)) by (done || lia).
    rewrite (getDesiredIndent_fuel_le n (Nat.max n k)) by (lia || by rewrite Hn).
    by rewrite Hn. }
  induction m as [|m IH]; intros u Hne.
  - pose proof (fun x => Hhit 0%nat u x Hne) as Hu.
    rewrite (getDesiredIndent_unfold _ st) in Hne, Hu |- *.
    rewrite (getDesiredIndent_unfold _ st').
    by apply getDesiredIndent_body_transparent.
  - pose proof (fun x => Hhit (S m) u x Hne) as Hu.
    rewrite (getDesiredIndent_unfold _ st) in Hne, Hu |- *.
    rewrite (getDesiredIndent_unfold _ st').
    by apply getDesiredIndent_body_transparent.
Qed.



(** X10 (a lock base on a line without first token).  After
    [matchOffsetOf(baseToken, offsetToken)] with a [baseToken] whose line has
    no entry in [firstTokensByLineNumber], a query of [offsetToken], when it
    is neither cached nor ignored, throws a [TypeError] at any depth. *)
Theorem X10_matchOffsetOf_unknown_line st baseToken offsetToken fuel :
  _desiredIndentCache st !! offsetToken = None ->
  offsetToken ∉ _ignoredTokens st ->
  getFirstTokenOfLine (_tokenInfo st) baseToken = None ->
  getDesiredIndent fuel (matchOffsetOf st baseToken offsetToken) offsetToken = TypeError.
Proof.
  intros Hc Hi E.
  rewrite getDesiredIndent_unfold. unfold getDesiredIndent_body. simpl.
  rewrite Hc, lookup_insert_eq, E. by rewrite bool_decide_eq_false_2.
Qed.

Lemma X10_matchOffsetOf_unknown_line_witness :
  getDesiredIndent 5
    (matchOffsetOf Examples.fresh (mkToken 41 9 10 7 0) Examples.tokB) Examples.tokB
  = TypeError.
Proof.
  apply (X10_matchOffsetOf_unknown_line Examples.fresh (mkToken 41 9 10 7 0) Examples.tokB 5).
  - reflexivity.
  - vm_compute. set_solver.
  - reflexivity.
Defined.

(** X11 (a token before every breakpoint).  A token, neither cached, nor
    ignored, nor locked, that starts before every key of the tree has no
    descriptor, and [getDesiredIndent] throws a [TypeError] at any depth: in
    a fresh storage, such is a token at a negative position. *)
Theorem X11_getDesiredIndent_below_every_key st t fuel :
  BST.sorted (_tree st) ->
  (forall k, k ∈ BST.keys (_tree st) -> range_0 t < k) ->
  _desiredIndentCache st !! t = None ->
  t ∉ _ignoredTokens st ->
  _lockedFirstTokens st !! t = None ->
  getDesiredIndent fuel st t = TypeError /\ getFirstDependency st t = None.
Proof.
  intros Hs Hk Hc Hi Hl.
  assert (BST.findLe (range_0 t) (_tree st) = None) as Hnone.
  { apply findLe_None; [done|]. intros k Hle. apply lookup_None_keys.
    intros Hin%Hk. lia. }
  split.
  - rewrite getDesiredIndent_unfold. unfold getDesiredIndent_body, _getOffsetDescriptor.
    rewrite Hc, Hl, Hnone. by rewrite bool_decide_eq_false_2.
  - unfold getFirstDependency, _getOffsetDescriptor. by rewrite Hnone.
Qed.

Lemma X11_getDesiredIndent_below_every_key_witness :
  getDesiredIndent 3 Examples.fresh (mkToken 40 (-1) 0 1 0) = TypeError /\
  getFirstDependency Examples.fresh (mkToken 40 (-1) 0 1 0) = None.
Proof.
  apply (X11_getDesiredIndent_below_every_key Examples.fresh (mkToken 40 (-1) 0 1 0) 3).
  - unfold BST.sorted. simpl. repeat constructor.
  - intros k [->|[]%elem_of_nil]%elem_of_cons. simpl. lia.
  - reflexivity.
  - vm_compute. set_solver.
  - reflexivity.
Defined.

(** X12 (no [TypeError]).  After any history of calls, from a fresh
    storage, whose declared ranges have [0 <= a <= b], when every anchor in
    the tree starts at a position [>= 0] and every lock base lies on a line
    that has a first token, which starts at a position [>= 0], a query of a
    token that starts at a position [>= 0] never throws. *)
Theorem X12_getDesiredIndent_never_throws tokenInfo indentSize calls st t fuel :
  Forall tiling_call calls ->
  run (newOffsetStorage tokenInfo indentSize) calls = Some st ->
  (forall k d f, BST.lookup k (_tree st) = Some (Some d) -> from d = Some f -> 0 <= range_0 f) ->
  (forall u b, _lockedFirstTokens st !! u = Some b ->
     exists l, getFirstTokenOfLine (_tokenInfo st) b = Some l /\ 0 <= range_0 l) ->
  0 <= range_0 t ->
  getDesiredIndent fuel st t <> TypeError.
Proof.
  intros Hcalls Hrun Hanchors Hlocks.
  assert (tiling (_tree st)) as Ht.
  { eapply tiling_run; [|done..]. apply tiling_initial. }
  clear Hcalls Hrun. revert t.
  induction fuel as [|n IH]; intros t Hpos; rewrite getDesiredIndent_unfold;
    unfold getDesiredIndent_body, cache_and_return.
  - destruct (_desiredIndentCache st !! t); [done|]. case_bool_decide; [done|].
    destruct (_lockedFirstTokens st !! t) as [b|] eqn:El.
    + destruct (Hlocks _ _ El) as (l & -> & _). done.
    + destruct (tiling_findLe _ _ Ht Hpos) as (k & d & Hk).
      unfold _getOffsetDescriptor. rewrite Hk. simpl. by destruct (from d).
  - destruct (_desiredIndentCache st !! t); [done|]. case_bool_decide; [done|].
    destruct (_lockedFirstTokens st !! t) as [b|] eqn:El.
    + destruct (Hlocks _ _ El) as (l & -> & Hl).
      specialize (IH l Hl). by destruct (getDesiredIndent n st l).
    + destruct (tiling_findLe _ _ Ht Hpos) as (k & d & Hk).
      unfold _getOffsetDescriptor. rewrite Hk. simpl.
      destruct (from d) as [f|] eqn:Ef; [|done].
      apply findLe_Some in Hk as (Hlk & _); [|apply Ht].
      specialize (IH f (Hanchors _ _ _ Hlk Ef)). by destruct (getDesiredIndent n st f).
Qed.

Lemma X12_getDesiredIndent_never_throws_witness :
  getDesiredIndent 2
    (setDesiredOffsets Examples.fresh (2, 6) (Some Examples.tokA) 1%Qc None) Examples.tokB
  <> TypeError.
Proof.
  apply (X12_getDesiredIndent_never_throws Examples.info 1
           [CallSetDesiredOffsets (2, 6) (Some Examples.tokA) 1%Qc None]).
  - repeat constructor; simpl; lia.
  - reflexivity.
  - intros k d f Hk Hf.
    assert (f = Examples.tokA) as ->; [|simpl; lia].
    simpl in Hk. repeat (case_match; simplify_eq); simpl in Hf; by simplify_eq.
  - intros u b Hu. simpl in Hu. by rewrite lookup_empty in Hu.
  - simpl. lia.
Defined.

(** X13 (a query changes the cache only).  A query that returns leaves the
    token information, the indent size, the tree, the lock table and the
    ignore set as they were, keeps every answer of the cache and adds its
    own. *)
Theorem X13_getDesiredIndent_frame fuel st t v st' :
  getDesiredIndent fuel st t = Ok v st' ->
  _tokenInfo st' = _tokenInfo st /\
  _indentSize st' = _indentSize st /\
  _tree st' = _tree st /\
  _lockedFirstTokens st' = _lockedFirstTokens st /\
  _ignoredTokens st' = _ignoredTokens st /\
  (forall u x, _desiredIndentCache st !! u = Some x -> _desiredIndentCache st' !! u = Some x) /\
  _desiredIndentCache st' !! t = Some v.
Proof.
  intros H. destruct (getDesiredIndent_extends _ _ _ _ _ H) as (? & ? & ? & ? & ? & ?).
  repeat split; try done. by eapply getDesiredIndent_cached.
Qed.

Lemma X13_getDesiredIndent_frame_witness :
  let st' := with_cache Examples.nested
               (<[Examples.tokY := 1%Qc]> (<[Examples.tokX := 0%Qc]> ∅)) in
  _tokenInfo st' = _tokenInfo Examples.nested /\
  _indentSize st' = _indentSize Examples.nested /\
  _tree st' = _tree Examples.nested /\
  _lockedFirstTokens st' = _lockedFirstTokens Examples.nested /\
  _ignoredTokens st' = _ignoredTokens Examples.nested /\
  (forall u x, _desiredIndentCache Examples.nested !! u = Some x ->
               _desiredIndentCache st' !! u = Some x) /\
  _desiredIndentCache st' !! Examples.tokY = Some 1%Qc.
Proof.
  apply (X13_getDesiredIndent_frame 1 Examples.nested Examples.tokY).
  vm_compute. reflexivity.
Defined.

(** X14 (the cache is transparent).  After a query that returned, every
    query that had an outcome before it (a value or a [TypeError]) has the
    same outcome: an answer does not depend on the queries answered
    before. *)
Theorem X14_cache_transparent fuel st t v st' m u :
  getDesiredIndent fuel st t = Ok v st' ->
  getDesiredIndent m st u <> OutOfFuel ->
  outcome (getDesiredIndent m st' u) = outcome (getDesiredIndent m st u).
Proof.
  intros H Hne. eapply getDesiredIndent_transparent; [|done].
  by eapply getDesiredIndent_answers_of.
Qed.

Lemma X14_cache_transparent_witness :
  outcome (getDesiredIndent 0
             (with_cache Examples.nested
                (<[Examples.tokY := 1%Qc]> (<[Examples.tokX := 0%Qc]> ∅))) Examples.tokX)
  = outcome (getDesiredIndent 0 Examples.nested Examples.tokX).
Proof.
  apply (X14_cache_transparent 1 Examples.nested Examples.tokY 1%Qc).
  - vm_compute. reflexivity.
  - vm_compute. discriminate.
Defined.

(** * Declarations followed by queries *)

(** X15 (the offset applies on another line).  After
    [setDesiredOffsets(range, anchor, offset, force)], a token that starts in
    the range on another line than the anchor, outside the span of an anchor
    that lies in the range, and that is neither cached, nor ignored, nor
    locked, resolves to the level of the anchor plus [offset], whatever
    [force] is. *)
Theorem X15_offset_on_another_line st range anchor off frc t fuel vA stA :
  let st' := setDesiredOffsets st range (Some anchor) off frc in
  BST.sorted (_tree st) ->
  in_range range (range_0 t) ->
  (range.1 <= range_0 anchor -> range_1 anchor <= range.2 ->
   range_0 anchor < range_1 anchor /\ ~ (range_0 anchor <= range_0 t < range_1 anchor)) ->
  loc_start_line anchor <> loc_start_line t ->
  _desiredIndentCache st !! t = None ->
  t ∉ _ignoredTokens st ->
  _lockedFirstTokens st !! t = None ->
  getDesiredIndent fuel st' anchor = Ok vA stA ->
  outcome (getDesiredIndent (S fuel) st' t) = Returns (off + vA)%Qc.
Proof.
  intros st' Hs Hin Hanchor Hline Hc Hi Hl HA.
  assert (_getOffsetDescriptor st' t
          = Some {| offset := off; from := Some anchor; force := frc |}) as Hd.
  { unfold _getOffsetDescriptor, st', setDesiredOffsets. simpl.
    apply findLe_inside_setDesiredOffsets_tree; [done|done|].
    intros [? ?]%fromTokenIsInRange_Some. by apply Hanchor. }
  destruct (getDesiredIndent_through_anchor fuel st' t _ anchor vA stA Hc Hi Hl Hd eq_refl HA)
    as (st2 & -> & _).
  unfold collapsedOffset. simpl.
  by destruct (Z.eqb_spec (loc_start_line anchor) (loc_start_line t)).
Qed.

Lemma X15_offset_on_another_line_witness :
  outcome (getDesiredIndent 1
             (setDesiredOffsets Examples.freshTwo (4, 12) (Some Examples.tokA) 1%Qc None)
             Examples.tokC)
  = Returns (1 + 0)%Qc.
Proof.
  apply (X15_offset_on_another_line Examples.freshTwo (4, 12) Examples.tokA 1%Qc None
           Examples.tokC 0 0%Qc
           (with_cache
              (setDesiredOffsets Examples.freshTwo (4, 12) (Some Examples.tokA) 1%Qc None)
              (<[Examples.tokA := (0 + 0)%Qc]> ∅))).
  - unfold BST.sorted. simpl. repeat constructor.
  - unfold in_range. simpl. lia.
  - simpl. lia.
  - simpl. lia.
  - reflexivity.
  - vm_compute. set_solver.
  - reflexivity.
  - vm_compute. reflexivity.
Defined.

Lemma getDesiredIndent_matchIndentOf st baseToken offsetToken fuel v st1 :
  BST.sorted (_tree st) ->
  range_0 offsetToken < range_1 offsetToken ->
  range_0 baseToken < range_1 baseToken ->
  range_0 baseToken <> range_0 offsetToken ->
  _desiredIndentCache st !! offsetToken = None ->
  offsetToken ∉ _ignoredTokens st ->
  _lockedFirstTokens st !! offsetToken = None ->
  getDesiredIndent fuel (matchIndentOf st baseToken offsetToken) baseToken = Ok v st1 ->
  outcome (getDesiredIndent (S fuel) (matchIndentOf st baseToken offsetToken) offsetToken)
  = Returns v.
Proof.
  intros Hs Ht Hb Hne Hc Hi Hl Hv.
  set (st' := matchIndentOf st baseToken offsetToken) in *.
  assert (_getOffsetDescriptor st' offsetToken
          = Some {| offset := 0%Qc; from := Some baseToken; force := None |}) as Hd.
  { unfold _getOffsetDescriptor, st', matchIndentOf, setDesiredOffsets. simpl.
    apply findLe_inside_setDesiredOffsets_tree; [done|unfold in_range; simpl; lia|].
    intros [? ?]%fromTokenIsInRange_Some. simpl in *. lia. }
  destruct (getDesiredIndent_through_anchor fuel st' offsetToken _ baseToken v st1
              Hc Hi Hl Hd eq_refl Hv) as (st2 & -> & _).
  simpl. f_equal. unfold collapsedOffset. simpl.
  destruct (_ && _); apply Qcplus_0_l.
Qed.

(** X16 ([matchIndentOf]).  After [matchIndentOf(baseToken, offsetToken)]
    with non-empty tokens that start at different positions, a query of
    [offsetToken], when it is neither cached, nor ignored, nor locked,
    returns the level of [baseToken], on the same line or on another. *)
Theorem X16_matchIndentOf_same_level st baseToken offsetToken fuel v st1 :
  let st' := matchIndentOf st baseToken offsetToken in
  BST.sorted (_tree st) ->
  range_0 offsetToken < range_1 offsetToken ->
  range_0 baseToken < range_1 baseToken ->
  range_0 baseToken <> range_0 offsetToken ->
  _desiredIndentCache st !! offsetToken = None ->
  offsetToken ∉ _ignoredTokens st ->
  _lockedFirstTokens st !! offsetToken = None ->
  getDesiredIndent fuel st' baseToken = Ok v st1 ->
  outcome (getDesiredIndent (S fuel) st' offsetToken) = Returns v.
Proof.
  intros st'. apply getDesiredIndent_matchIndentOf.
Qed.

Lemma X16_matchIndentOf_same_level_witness :
  outcome (getDesiredIndent 1 (matchIndentOf Examples.freshTwo Examples.tokA Examples.tokC)
             Examples.tokC)
  = Returns 0%Qc.
Proof.
  apply (X16_matchIndentOf_same_level Examples.freshTwo Examples.tokA Examples.tokC 0 0%Qc
           (with_cache (matchIndentOf Examples.freshTwo Examples.tokA Examples.tokC)
              (<[Examples.tokA := (0 + 0)%Qc]> ∅))).
  - unfold BST.sorted. simpl. repeat constructor.
  - simpl. lia.
  - simpl. lia.
  - simpl. lia.
  - reflexivity.
  - vm_compute. set_solver.
  - reflexivity.
  - vm_compute. reflexivity.
Defined.

(** X17 (the listener [JSXExpressionContainer]).  For an opening curly that
    ends before the closing curly starts, both non-empty, the listener leaves
    the closing curly at the level of the opening curly, and a token that
    starts between the end of the opening curly and the start of the closing
    curly, on another line than the opening curly, one level deeper; the
    two tokens are neither cached, nor ignored, nor locked. *)
Theorem X17_JSXExpressionContainer_levels st openingCurly closingCurly t fuel v st1 :
  let st' := JSXExpressionContainer st openingCurly closingCurly in
  BST.sorted (_tree st) ->
  range_0 openingCurly < range_1 openingCurly ->
  range_1 openingCurly <= range_0 closingCurly ->
  range_0 closingCurly < range_1 closingCurly ->
  _desiredIndentCache st !! closingCurly = None ->
  closingCurly ∉ _ignoredTokens st ->
  _lockedFirstTokens st !! closingCurly = None ->
  range_1 openingCurly <= range_0 t < range_0 closingCurly ->
  loc_start_line openingCurly <> loc_start_line t ->
  _desiredIndentCache st !! t = None ->
  t ∉ _ignoredTokens st ->
  _lockedFirstTokens st !! t = None ->
  getDesiredIndent fuel st' openingCurly = Ok v st1 ->
  outcome (getDesiredIndent (S fuel) st' closingCurly) = Returns v /\
  outcome (getDesiredIndent (S fuel) st' t) = Returns (1 + v)%Qc.
Proof.
  intros st' Hs Ho Hoc Hcl Hc Hi Hl Hin Hline Hc' Hi' Hl' Hv.
  set (st0 := setDesiredOffsets st (range_1 openingCurly, range_0 closingCurly)
                (Some openingCurly) 1%Qc None).
  assert (BST.sorted (_tree st0)) as Hs0 by by apply sorted_setDesiredOffsets_tree.
  split.
  - apply (getDesiredIndent_matchIndentOf st0 openingCurly closingCurly fuel v st1);
      try done. lia.
  - assert (_getOffsetDescriptor st' t
            = Some {| offset := 1%Qc; from := Some openingCurly; force := None |}) as Hd.
    { unfold _getOffsetDescriptor, st', JSXExpressionContainer, matchIndentOf.
      fold st0. simpl.
      rewrite findLe_below_setDesiredOffsets_tree;
        [|done|simpl; lia|simpl; lia|simpl; lia].
      unfold st0. simpl.
      apply findLe_inside_setDesiredOffsets_tree; [done|unfold in_range; simpl; lia|].
      intros [? ?]%fromTokenIsInRange_Some. simpl in *. lia. }
    destruct (getDesiredIndent_through_anchor fuel st' t _ openingCurly v st1
                Hc' Hi' Hl' Hd eq_refl Hv) as (st2 & -> & _).
    unfold collapsedOffset. simpl.
    by destruct (Z.eqb_spec (loc_start_line openingCurly) (loc_start_line t)).
Qed.

Lemma X17_JSXExpressionContainer_levels_witness :
  outcome (getDesiredIndent 1
             (JSXExpressionContainer MoreExamples.freshJSX MoreExamples.tokOpen
                MoreExamples.tokClose) MoreExamples.tokClose) = Returns 0%Qc /\
  outcome (getDesiredIndent 1
             (JSXExpressionContainer MoreExamples.freshJSX MoreExamples.tokOpen
                MoreExamples.tokClose) MoreExamples.tokInner) = Returns (1 + 0)%Qc.
Proof.
  apply (X17_JSXExpressionContainer_levels MoreExamples.freshJSX MoreExamples.tokOpen
           MoreExamples.tokClose MoreExamples.tokInner 0 0%Qc
           (with_cache
              (JSXExpressionContainer MoreExamples.freshJSX MoreExamples.tokOpen
                 MoreExamples.tokClose)
              (<[MoreExamples.tokOpen := (0 + 0)%Qc]> ∅))).
  - unfold BST.sorted. simpl. repeat constructor.
  - simpl. lia.
  - simpl. lia.
  - simpl. lia.
  - reflexivity.
  - vm_compute. set_solver.
  - reflexivity.
  - simpl. lia.
  - simpl. lia.
  - reflexivity.
  - vm_compute. set_solver.
  - reflexivity.
  - vm_compute. reflexivity.
Defined.

(** X18 ([setDesiredOffset] then [getFirstDependency]).  After
    [setDesiredOffset(token, fromToken, offset)] on a non-empty token,
    [getFirstDependency(token)] returns [fromToken], unless [fromToken] lies
    wholly inside the token and is empty or starts where the token starts. *)
Theorem X18_getFirstDependency_after_setDesiredOffset st token fromToken off :
  BST.sorted (_tree st) ->
  range_0 token < range_1 token ->
  (forall f, fromToken = Some f ->
     range_0 token <= range_0 f -> range_1 f <= range_1 token ->
     range_0 token < range_0 f < range_1 f) ->
  getFirstDependency (setDesiredOffset st token fromToken off) token = Some fromToken.
Proof.
  intros Hs Ht Hf. unfold getFirstDependency, _getOffsetDescriptor, setDesiredOffset,
    setDesiredOffsets. simpl.
  rewrite findLe_inside_setDesiredOffsets_tree; [done|done|unfold in_range; simpl; lia|].
  destruct fromToken as [f|]; [|done].
  intros [? ?]%fromTokenIsInRange_Some. simpl in *.
  specialize (Hf f eq_refl). lia.
Qed.

Lemma X18_getFirstDependency_after_setDesiredOffset_witness :
  getFirstDependency
    (setDesiredOffset Examples.fresh Examples.tokB (Some Examples.tokA) 1%Qc) Examples.tokB
  = Some (Some Examples.tokA).
Proof.
  apply (X18_getFirstDependency_after_setDesiredOffset Examples.fresh Examples.tokB
           (Some Examples.tokA) 1%Qc).
  - unfold BST.sorted. simpl. repeat constructor.
  - simpl. lia.
  - intros f [= <-]. simpl. lia.
Defined.

(** * Further properties of the reporting pass *)

Lemma extends_cache_trans st1 st2 st3 :
  extends_cache st1 st2 -> extends_cache st2 st3 -> extends_cache st1 st3.
Proof.
  intros (? & ? & ? & ? & ? & H12) (? & ? & ? & ? & ? & H23).
  repeat split; try congruence. intros u x Hu. by apply H23, H12.
Qed.

Lemma reportToken_cached fuel st token v :
  _desiredIndentCache st !! token = Some v ->
  reportToken fuel st token = LineReport token v st.
Proof.
  intros Hc. unfold reportToken. by rewrite (getDesiredIndent_hit fuel st token v Hc).
Qed.

Lemma validateAgainst_report indentType fuel st firstTokenOfLine token k tok v st' :
  validateAgainst indentType fuel st firstTokenOfLine token k = LineReport tok v st' ->
  exists x st1 b,
    getDesiredIndent fuel st token = Ok x st1 /\
    validateTokenIndent indentType (_indentSize st) (_tokenInfo st) firstTokenOfLine x = Some b /\
    k b st1 = LineReport tok v st'.
Proof.
  unfold validateAgainst.
  destruct (getDesiredIndent fuel st token) as [x st1| |]; [|done..].
  destruct (validateTokenIndent _ _ _ _ _) as [b|] eqn:E; [|done].
  intros Hk. by exists x, st1, b.
Qed.

(** X19 (what a report says).  When the callback of the reporting pass
    reports on a line, the reported token is the entry of
    [firstTokensByLineNumber] for that line and starts on that line, the
    reported level is the one [getDesiredIndent] gives for it, left in the
    cache, and [validateTokenIndent] rejects the token at that level; the
    storage differs from the one before in its cache only. *)
Theorem X19_checkLine_report indentType isCommentToken precedingTokens getTokenAfter
    firstAstToken fuel st lineNumber token level st' :
  checkLine indentType isCommentToken precedingTokens getTokenAfter firstAstToken
    fuel st lineNumber = LineReport token level st' ->
  firstTokensByLineNumber (_tokenInfo st) !! lineNumber = Some token /\
  loc_start_line token = lineNumber /\
  outcome (getDesiredIndent fuel st token) = Returns level /\
  validateTokenIndent indentType (_indentSize st) (_tokenInfo st) token level = Some false /\
  _desiredIndentCache st' !! token = Some level /\
  extends_cache st st'.
Proof.
  unfold checkLine.
  destruct (firstTokensByLineNumber (_tokenInfo st) !! lineNumber) as [tok0|]; [|done].
  destruct (Z.eqb_spec (loc_start_line tok0) lineNumber) as [Hline|]; simpl; [|done].
  intros (v0 & st1 & b & H1 & Hv & Hk)%validateAgainst_report.
  destruct b; [done|].
  pose proof (getDesiredIndent_cached _ _ _ _ _ H1) as Hc1.
  pose proof (getDesiredIndent_extends _ _ _ _ _ H1) as He1.
  assert (forall s, extends_cache st1 s ->
            reportToken fuel s tok0 = LineReport token level st' ->
            token = tok0 /\ level = v0 /\ st' = s) as Hreport.
  { intros s (_ & _ & _ & _ & _ & Hs) Hr.
    rewrite (reportToken_cached fuel s tok0 v0) in Hr by by apply Hs.
    by simplify_eq. }
  assert (token = tok0 /\ level = v0 /\ extends_cache st1 st') as (-> & -> & He).
  { destruct (isCommentToken tok0).
    - assert (forall s, extends_cache st1 s ->
                match match precedingTokens tok0 with
                      | Some b => getTokenAfter b
                      | None => firstAstToken
                      end with
                | Some a =>
                    validateAgainst indentType fuel s tok0 a (fun valid st3 =>
                      if valid then LineOk st3 else reportToken fuel st3 tok0)
                | None => reportToken fuel s tok0
                end = LineReport token level st' ->
                token = tok0 /\ level = v0 /\ extends_cache st1 st') as Hafter.
      { intros s Hs. destruct (match precedingTokens tok0 with
                               | Some b => getTokenAfter b
                               | None => firstAstToken
                               end) as [a|].
        - intros (x & s3 & b & H3 & _ & Hk3)%validateAgainst_report.
          destruct b; [done|].
          pose proof (extends_cache_trans _ _ _ Hs (getDesiredIndent_extends _ _ _ _ _ H3))
            as Hs3.
          destruct (Hreport s3 Hs3 Hk3) as (-> & -> & ->). done.
        - intros Hr. destruct (Hreport s Hs Hr) as (-> & -> & ->). done. }
      destruct (precedingTokens tok0) as [b|].
      + apply validateAgainst_report in Hk as (x & s2 & bb & H2 & _ & Hk2).
        destruct bb; [done|].
        pose proof (getDesiredIndent_extends _ _ _ _ _ H2) as Hs2.
        by apply (Hafter s2).
      + apply (Hafter st1); [apply extends_cache_refl|done].
    - destruct (Hreport st1 (extends_cache_refl st1) Hk) as (-> & -> & ->).
      repeat split; try done. }
  split; [done|]. split; [done|]. split; [by rewrite H1|]. split; [done|].
  split; [by apply He|]. by eapply extends_cache_trans.
Qed.

Lemma X19_checkLine_report_witness :
  let st' := with_cache Examples.ignoredEq (<[Examples.tokEq := (Qc_of_Z 1 / Qc_of_Z 4)%Qc]> ∅) in
  firstTokensByLineNumber (_tokenInfo Examples.ignoredEq) !! 2 = Some Examples.tokEq /\
  loc_start_line Examples.tokEq = 2 /\
  outcome (getDesiredIndent 0 Examples.ignoredEq Examples.tokEq)
  = Returns (Qc_of_Z 1 / Qc_of_Z 4)%Qc /\
  validateTokenIndent Space (_indentSize Examples.ignoredEq) (_tokenInfo Examples.ignoredEq)
    Examples.tokEq (Qc_of_Z 1 / Qc_of_Z 4)%Qc = Some false /\
  _desiredIndentCache st' !! Examples.tokEq = Some (Qc_of_Z 1 / Qc_of_Z 4)%Qc /\
  extends_cache Examples.ignoredEq st'.
Proof.
  apply (X19_checkLine_report Space (fun _ => false) (fun _ => None) (fun _ => None) None
           0 Examples.ignoredEq 2).
  vm_compute. reflexivity.
Defined.







(** * The constructor of [TokenInfo] *)

Lemma registerToken_keeps tx m t line x :
  m !! line = Some x -> registerToken tx m t !! line = Some x.
Proof.
  intros Hm. unfold registerToken.
  set (m1 := match m !! loc_start_line (token_of t) with
             | Some _ => m
             | None => <[loc_start_line (token_of t) := token_of t]> m
             end).
  assert (m1 !! line = Some x) as Hm1.
  { unfold m1. destruct (m !! loc_start_line (token_of t)) eqn:E; [done|].
    rewrite lookup_insert_ne; [done|]. congruence. }
  destruct (m1 !! loc_end_line t) eqn:E; [done|].
  destruct (trimIsTruthy _); [|done].
  rewrite lookup_insert_ne; [done|]. congruence.
Qed.

Lemma fold_registerToken_keeps tx tokens m line x :
  m !! line = Some x -> fold_left (registerToken tx) tokens m !! line = Some x.
Proof.
  revert m. induction tokens as [|t r IH]; intros m Hm; simpl; [done|].
  by apply IH, registerToken_keeps.
Qed.

Lemma registerToken_start tx m t :
  registerToken tx m t !! loc_start_line (token_of t)
  = Some (default (token_of t) (m !! loc_start_line (token_of t))).
Proof.
  destruct (m !! loc_start_line (token_of t)) as [x|] eqn:E; simpl.
  - by apply registerToken_keeps.
  - unfold registerToken. rewrite E.
    destruct (_ !! loc_end_line t) eqn:E1; [by rewrite lookup_insert_eq|].
    destruct (trimIsTruthy _); [|by rewrite lookup_insert_eq].
    rewrite lookup_insert_ne; [by rewrite lookup_insert_eq|].
    intros Heq. rewrite <- Heq, lookup_insert_eq in E1. done.
Qed.

Lemma registerToken_origin tx m t line x :
  registerToken tx m t !! line = Some x ->
  m !! line = Some x \/
  x = token_of t /\
  (loc_start_line (token_of t) = line \/
   loc_end_line t = line /\
   trimIsTruthy (slice tx (range_1 (token_of t) - loc_end_column t) (range_1 (token_of t)))
   = true).
Proof.
  unfold registerToken.
  set (m1 := match m !! loc_start_line (token_of t) with
             | Some _ => m
             | None => <[loc_start_line (token_of t) := token_of t]> m
             end).
  assert (forall y, m1 !! line = Some y ->
            m !! line = Some y \/ y = token_of t /\ loc_start_line (token_of t) = line) as H1.
  { intros y. unfold m1. destruct (m !! loc_start_line (token_of t)); [by left|].
    destruct (decide (loc_start_line (token_of t) = line)) as [->|Hne].
    - rewrite lookup_insert_eq. intros [= <-]. by right.
    - rewrite lookup_insert_ne by done. by left. }
  destruct (m1 !! loc_end_line t) eqn:E.
  { intros [?|[? ?]]%H1; [by left|right; auto]. }
  destruct (trimIsTruthy _) eqn:Et.
  - destruct (decide (loc_end_line t = line)) as [->|Hne].
    + rewrite lookup_insert_eq. intros [= <-]. right. auto.
    + rewrite lookup_insert_ne by done. intros [?|[? ?]]%H1; [by left|right; auto].
  - intros [?|[? ?]]%H1; [by left|right; auto].
Qed.

Lemma registerToken_other tx m t line :
  loc_start_line (token_of t) <> line ->
  (loc_end_line t <> line \/
   trimIsTruthy (slice tx (range_1 (token_of t) - loc_end_column t) (range_1 (token_of t)))
   = false) ->
  m !! line = None -> registerToken tx m t !! line = None.
Proof.
  intros Hs He Hm. destruct (registerToken tx m t !! line) as [x|] eqn:E; [|done].
  apply registerToken_origin in E as [?|(_ & [?|[? ?]])]; [congruence|done|].
  destruct He; congruence.
Qed.

Lemma fold_registerToken_start tx tokens m t :
  t ∈ tokens ->
  is_Some (fold_left (registerToken tx) tokens m !! loc_start_line (token_of t)).
Proof.
  revert m. induction tokens as [|u r IH]; intros m Hin.
  - by apply elem_of_nil in Hin.
  - apply elem_of_cons in Hin as [->|Hin]; simpl; [|by apply IH].
    eexists. apply fold_registerToken_keeps, registerToken_start.
Qed.

Lemma fold_registerToken_origin tx tokens m line x :
  fold_left (registerToken tx) tokens m !! line = Some x ->
  m !! line = Some x \/
  exists t, t ∈ tokens /\ token_of t = x /\
    (loc_start_line x = line \/
     loc_end_line t = line /\
     trimIsTruthy (slice tx (range_1 x - loc_end_column t) (range_1 x)) = true).
Proof.
  revert m. induction tokens as [|u r IH]; intros m; simpl; [by left|].
  intros [H|(t & Hin & Ht)]%IH.
  - apply registerToken_origin in H as [?|(-> & H)]; [by left|].
    right. exists u. split; [apply elem_of_cons; by left|]. split; [done|]. exact H.
  - right. exists t. split; [apply elem_of_cons; by right|done].
Qed.

Lemma fold_registerToken_none tx tokens m line :
  (forall u, u ∈ tokens ->
     loc_start_line (token_of u) <> line /\
     (loc_end_line u <> line \/
      trimIsTruthy (slice tx (range_1 (token_of u) - loc_end_column u) (range_1 (token_of u)))
      = false)) ->
  m !! line = None -> fold_left (registerToken tx) tokens m !! line = None.
Proof.
  revert m. induction tokens as [|u r IH]; intros m Hall Hm; simpl; [done|].
  apply IH.
  - intros w Hw. apply Hall, elem_of_cons. by right.
  - destruct (Hall u) as [? ?]; [apply elem_of_cons; by left|].
    by apply registerToken_other.
Qed.

(** X22 (what the constructor of [TokenInfo] registers).  In the map that
    the constructor builds from [tokensAndComments], the start line of every
    token has an entry, and the entry of a line is a token of the stream that
    starts on the line, or that ends on it with the text of the line up to
    the end of the token not blank. *)
Theorem X22_firstTokensByLineNumber_entries tx tokensAndComments :
  (forall t, t ∈ tokensAndComments ->
     is_Some (firstTokensByLineNumber (newTokenInfo tx tokensAndComments)
              !! loc_start_line (token_of t))) /\
  (forall line x,
     firstTokensByLineNumber (newTokenInfo tx tokensAndComments) !! line = Some x ->
     exists t, t ∈ tokensAndComments /\ token_of t = x /\
       (loc_start_line x = line \/
        loc_end_line t = line /\
        trimIsTruthy (slice tx (range_1 x - loc_end_column t) (range_1 x)) = true)).
Proof.
  unfold newTokenInfo. simpl. split.
  - intros t Hin. by apply fold_registerToken_start.
  - intros line x [H|H]%fold_registerToken_origin; [|done].
    by rewrite lookup_empty in H.
Qed.

(** X23 (the first writer of a line wins).  A token of the stream such that
    no token before it starts on its start line, or ends on that line with
    the text of the line up to its end not blank, is the entry of its start
    line in the map that the constructor builds, whatever tokens follow:
    [isFirstTokenOfLine] holds of it. *)
Theorem X23_first_token_of_line tx before t after :
  (forall u, u ∈ before ->
     loc_start_line (token_of u) <> loc_start_line (token_of t) /\
     (loc_end_line u <> loc_start_line (token_of t) \/
      trimIsTruthy (slice tx (range_1 (token_of u) - loc_end_column u) (range_1 (token_of u)))
      = false)) ->
  getFirstTokenOfLine (newTokenInfo tx (before ++ t :: after)) (token_of t)
  = Some (token_of t) /\
  isFirstTokenOfLine (newTokenInfo tx (before ++ t :: after)) (token_of t) = true.
Proof.
  intros Hbefore.
  assert (getFirstTokenOfLine (newTokenInfo tx (before ++ t :: after)) (token_of t)
          = Some (token_of t)) as H.
  { unfold getFirstTokenOfLine, newTokenInfo. simpl. rewrite fold_left_app. simpl.
    apply fold_registerToken_keeps. rewrite registerToken_start.
    by rewrite (fold_registerToken_none tx before ∅ _ Hbefore (lookup_empty _)). }
  split; [done|]. unfold isFirstTokenOfLine. by rewrite bool_decide_eq_true_2.
Qed.

Lemma X23_first_token_of_line_witness :
  getFirstTokenOfLine
    (newTokenInfo (text MoreExamples.infoJSX)
       ([MoreExamples.srcOpen] ++ MoreExamples.srcInner :: [MoreExamples.srcClose]))
    (token_of MoreExamples.srcInner)
  = Some (token_of MoreExamples.srcInner) /\
  isFirstTokenOfLine
    (newTokenInfo (text MoreExamples.infoJSX)
       ([MoreExamples.srcOpen] ++ MoreExamples.srcInner :: [MoreExamples.srcClose]))
    (token_of MoreExamples.srcInner)
  = true.
Proof.
  apply (X23_first_token_of_line (text MoreExamples.infoJSX) [MoreExamples.srcOpen]
           MoreExamples.srcInner [MoreExamples.srcClose]).
  intros u [->|[]%elem_of_nil]%elem_of_cons. simpl. split; [lia|left; lia].
Defined.

(** * Parenthesis pairs *)

Section ParenPairsFacts.

Variable isOpeningParenToken : Token -> bool.
Variable isClosingParenToken : Token -> bool.

Lemma fold_accumulateParen_rights tokens stack pairs :
  map snd (fold_left (accumulateParen isOpeningParenToken isClosingParenToken)
             tokens (stack, pairs)).2
  = rev (List.filter (closes isOpeningParenToken isClosingParenToken) tokens) ++ map snd pairs.
Proof.
  revert stack pairs. induction tokens as [|t r IH]; intros stack pairs; simpl; [done|].
  unfold accumulateParen at 2, closes. simpl.
  destruct (isOpeningParenToken t); simpl; [apply IH|].
  destruct (isClosingParenToken t); simpl; [|apply IH].
  rewrite IH. simpl. by rewrite <- app_assoc.
Qed.

Lemma fold_accumulateParen_lefts (all : list Token) tokens stack pairs :
  (forall n, (length (List.filter (closes isOpeningParenToken isClosingParenToken) (take n tokens))
              <= length stack + length (List.filter isOpeningParenToken (take n tokens)))%nat) ->
  (forall t, t ∈ tokens -> t ∈ all) ->
  Forall (fun l => isOpeningParenToken l = true /\ l ∈ all) stack ->
  Forall (fun p : option Token * Token =>
            exists l, p.1 = Some l /\ isOpeningParenToken l = true /\ l ∈ all) pairs ->
  Forall (fun p : option Token * Token =>
            exists l, p.1 = Some l /\ isOpeningParenToken l = true /\ l ∈ all)
    (fold_left (accumulateParen isOpeningParenToken isClosingParenToken)
       tokens (stack, pairs)).2.
Proof.
  revert stack pairs. induction tokens as [|t r IH]; intros stack pairs Hbal Hall Hst Hps;
    simpl; [done|].
  assert (forall u, u ∈ r -> u ∈ all) as Hall'.
  { intros u Hu. apply Hall, elem_of_cons. by right. }
  unfold accumulateParen at 2. simpl.
  destruct (isOpeningParenToken t) eqn:Eo.
  - apply IH; [|done| |done].
    + intros n. specialize (Hbal (S n)). simpl in Hbal. unfold closes in Hbal at 1.
      rewrite Eo in Hbal. simpl in *. lia.
    + constructor; [|done]. split; [done|]. apply Hall, elem_of_cons. by left.
  - destruct (isClosingParenToken t) eqn:Ec.
    + pose proof (Hbal 1%nat) as H1. simpl in H1. unfold closes in H1 at 1.
      rewrite Eo, Ec in H1. simpl in H1.
      destruct stack as [|l stack]; [simpl in H1; lia|].
      inversion Hst as [|? ? Hl Hst']; subst. simpl.
      apply IH; [|done|done|].
      * intros n. specialize (Hbal (S n)). simpl in Hbal. unfold closes in Hbal at 1.
        rewrite Eo, Ec in Hbal. simpl in *. lia.
      * constructor; [|done]. exists l. by destruct Hl.
    + apply IH; [|done|done|done].
      intros n. specialize (Hbal (S n)). simpl in Hbal. unfold closes in Hbal at 1.
      rewrite Eo, Ec in Hbal. simpl in *. lia.
Qed.

End ParenPairsFacts.

(** X24 (the right parentheses of the pairs).  The pairs that
    [addParensIndent] accumulates hold, as their [right], the tokens that
    are closing and not opening parentheses, each once, the last of the
    stream first. *)
Theorem X24_parenPairs_rights isOpeningParenToken isClosingParenToken tokens :
  map snd (parenPairsOf isOpeningParenToken isClosingParenToken tokens)
  = rev (List.filter (closes isOpeningParenToken isClosingParenToken) tokens).
Proof.
  unfold parenPairsOf. rewrite fold_accumulateParen_rights. simpl. apply app_nil_r.
Qed.

(** X25 (the left parentheses of the pairs).  When no prefix of the token
    stream has more closing than opening parentheses, every pair that
    [addParensIndent] accumulates has a [left], which is an opening
    parenthesis of the stream: no [left] is [undefined]. *)
Theorem X25_parenPairs_lefts isOpeningParenToken isClosingParenToken tokens :
  (forall n,
     (length (List.filter (closes isOpeningParenToken isClosingParenToken) (take n tokens))
      <= length (List.filter isOpeningParenToken (take n tokens)))%nat) ->
  Forall (fun p : option Token * Token =>
            exists l, p.1 = Some l /\ isOpeningParenToken l = true /\ l ∈ tokens)
    (parenPairsOf isOpeningParenToken isClosingParenToken tokens).
Proof.
  intros Hbal. unfold parenPairsOf.
  apply fold_accumulateParen_lefts; [|done|constructor|constructor].
  intros n. simpl. apply Hbal.
Qed.

Lemma X25_parenPairs_lefts_witness :
  Forall (fun p : option Token * Token =>
            exists l, p.1 = Some l /\
              bool_decide (l = MoreExamples.tokOpen) = true /\
              l ∈ [MoreExamples.tokOpen; MoreExamples.tokInner; MoreExamples.tokClose])
    (parenPairsOf (fun t => bool_decide (t = MoreExamples.tokOpen))
       (fun t => bool_decide (t = MoreExamples.tokClose))
       [MoreExamples.tokOpen; MoreExamples.tokInner; MoreExamples.tokClose]).
Proof.
  apply (X25_parenPairs_lefts (fun t => bool_decide (t = MoreExamples.tokOpen))
           (fun t => bool_decide (t = MoreExamples.tokClose))
           [MoreExamples.tokOpen; MoreExamples.tokInner; MoreExamples.tokClose]).
  intros [|[|[|[|n]]]]; vm_compute; lia.
Defined.

(** * [normalizeEcmaVersion] *)


(** * The key-spacing rule *)

Section KeySpacingFacts.

Import KeySpacing.

Lemma last_stdpp {A} (l : list A) : KeySpacing.last l = list.last l.
Proof. unfold KeySpacing.last. rewrite last_lookup. f_equal. lia. Qed.

Lemma last_cons_cons {A} (a b : A) r : KeySpacing.last (a :: b :: r) = KeySpacing.last (b :: r).
Proof. by rewrite !last_stdpp. Qed.

Lemma last_snoc_inv {A} (l : list A) x :
  KeySpacing.last l = Some x -> l = removelast l ++ [x].
Proof.
  rewrite last_stdpp. intros [l' ->]%last_Some. by rewrite removelast_last.
Qed.

Lemma successiveCommentsAdjacent_cover previous rest cl line :
  successiveCommentsAdjacent previous rest = true ->
  KeySpacing.last (previous :: rest) = Some cl ->
  comment_end_line previous < line <= comment_end_line cl ->
  exists c, c ∈ rest /\ comment_start_line c <= line <= comment_end_line c.
Proof.
  revert previous. induction rest as [|c r IH]; intros previous; simpl.
  - intros _ [= <-]. lia.
  - destruct (Z.gtb_spec (comment_start_line c - comment_end_line previous) 1); [done|].
    rewrite last_cons_cons. intros Hadj Hlast Hline.
    destruct (Z.le_gt_cases line (comment_end_line c)).
    + exists c. split; [apply elem_of_cons; by left|lia].
    + destruct (IH c Hadj Hlast ltac:(lia)) as (c' & Hin & Hc').
      exists c'. split; [apply elem_of_cons; by right|done].
Qed.

End KeySpacingFacts.

(** X27 (no blank line inside a group).  When
    [continuesPropertyGroup(lastMember, candidate)] is true, every line
    strictly between the start line of [lastMember] and the start line of
    [candidate] is a line of one of the leading comments of [candidate]. *)
Theorem X27_continuesPropertyGroup_covered lastMember candidate line :
  KeySpacing.continuesPropertyGroup lastMember candidate = Some true ->
  KeySpacing.node_start_line lastMember < line < KeySpacing.node_start_line candidate ->
  exists comments c,
    KeySpacing.leadingComments candidate = Some comments /\ c ∈ comments /\
    KeySpacing.comment_start_line c <= line <= KeySpacing.comment_end_line c.
Proof.
  unfold KeySpacing.continuesPropertyGroup.
  destruct (Z.leb_spec0 (KeySpacing.node_start_line candidate
                         - KeySpacing.node_start_line lastMember) 1); [lia|].
  destruct (KeySpacing.leadingComments candidate) as [[|c0 rest]|]; [done| |done].
  destruct (KeySpacing.last (c0 :: rest)) as [cl|] eqn:El; [|done].
  destruct (Z.leb_spec0 (KeySpacing.comment_start_line c0
                         - KeySpacing.node_start_line lastMember) 1); simpl; [|done].
  destruct (Z.leb_spec0 (KeySpacing.node_start_line candidate
                         - KeySpacing.comment_end_line cl) 1); simpl; [|done].
  intros [= Hadj] Hline. exists (c0 :: rest).
  destruct (Z.le_gt_cases line (KeySpacing.comment_end_line c0)).
  - exists c0. split; [done|]. split; [apply elem_of_cons; by left|lia].
  - destruct (successiveCommentsAdjacent_cover c0 rest cl line Hadj El ltac:(lia))
      as (c & Hin & Hc).
    exists c. split; [done|]. split; [apply elem_of_cons; by right|done].
Qed.

Lemma X27_continuesPropertyGroup_covered_witness :
  exists comments c,
    KeySpacing.leadingComments
      (KeySpacing.mkPropertyNode 5
         (Some [KeySpacing.mkComment 2 3; KeySpacing.mkComment 4 4])) = Some comments /\
    c ∈ comments /\
    KeySpacing.comment_start_line c <= 4 <= KeySpacing.comment_end_line c.
Proof.
  apply (X27_continuesPropertyGroup_covered (KeySpacing.mkPropertyNode 1 None)
           (KeySpacing.mkPropertyNode 5
              (Some [KeySpacing.mkComment 2 3; KeySpacing.mkComment 4 4])) 4).
  - reflexivity.
  - simpl. lia.
Defined.

(** X28 (when [continuesPropertyGroup] throws).  The function throws
    exactly when the candidate starts more than one line after the last
    member and its [leadingComments] is an empty array; otherwise it returns
    a boolean. *)
Theorem X28_continuesPropertyGroup_throws lastMember candidate :
  KeySpacing.continuesPropertyGroup lastMember candidate = None <->
  1 < KeySpacing.node_start_line candidate - KeySpacing.node_start_line lastMember /\
  KeySpacing.leadingComments candidate = Some [].
Proof.
  unfold KeySpacing.continuesPropertyGroup.
  destruct (Z.leb_spec0 (KeySpacing.node_start_line candidate
                         - KeySpacing.node_start_line lastMember) 1).
  { split; [done|lia]. }
  destruct (KeySpacing.leadingComments candidate) as [[|c0 rest]|].
  - split; [intros _; split; [lia|done]|done].
  - destruct (KeySpacing.last (c0 :: rest)) as [cl|] eqn:El.
    + destruct (_ && _); split; (done || by intros [_ [=]]).
    + rewrite last_stdpp in El. by apply last_None in El.
  - split; [done|by intros [_ [=]]].
Qed.

Section CreateGroupsFacts.

Import KeySpacing.

Lemma addToGroups_groups_of gs ps p gs' :
  groups_of gs ps -> addToGroups gs p = Some gs' -> groups_of gs' (ps ++ [p]).
Proof.
  intros (Hcat & Hne & Hnil & Hall). unfold addToGroups.
  destruct (KeySpacing.last gs) as [g|] eqn:Eg; [|done].
  apply last_snoc_inv in Eg. set (l' := removelast gs) in *.
  assert (Forall (fun g => g <> []) l') as Hl'.
  { destruct ps as [|q ps].
    - rewrite (Hnil eq_refl) in Eg. destruct l' as [|? [|? ?]]; by simplify_eq.
    - specialize (Hall ltac:(done)). rewrite Eg in Hall.
      by apply Forall_app in Hall as [? _]. }
  assert (groups_of (l' ++ [g ++ [p]]) (ps ++ [p])) as Hpushed.
  { repeat split.
    - rewrite <- Hcat, Eg, !concat_app. simpl. by rewrite !app_nil_r, app_assoc.
    - by destruct l'.
    - by destruct ps.
    - intros _. apply Forall_app. split; [done|]. constructor; [by destruct g|constructor]. }
  assert (g <> [] -> groups_of (gs ++ [[p]]) (ps ++ [p])) as Hnew.
  { intros Hg. repeat split.
    - rewrite concat_app, Hcat. by simpl.
    - by destruct gs.
    - by destruct ps.
    - intros _. apply Forall_app. split; [|by repeat constructor].
      apply Hall. intros ->. rewrite Eg, concat_app in Hcat. simpl in Hcat.
      rewrite app_nil_r in Hcat. apply app_eq_nil in Hcat as [_ ?]. done. }
  destruct (KeySpacing.last g) as [prev|] eqn:Ep.
  - destruct (continuesPropertyGroup prev p) as [[|]|]; [| |done].
    + by intros [= <-].
    + intros [= <-]. apply Hnew. intros ->. done.
  - by intros [= <-].
Qed.

Lemma fold_addToGroups_None (properties : list PropertyNode) :
  fold_left (fun groups property => groups ≫= fun gs => addToGroups gs property)
    properties None = None.
Proof. by induction properties. Qed.

Lemma fold_addToGroups_groups_of properties gs0 ps0 gs :
  groups_of gs0 ps0 ->
  fold_left (fun groups property => groups ≫= fun gs => addToGroups gs property)
    properties (Some gs0) = Some gs ->
  groups_of gs (ps0 ++ properties).
Proof.
  revert gs0 ps0. induction properties as [|p r IH]; intros gs0 ps0 H0; simpl.
  - intros [= <-]. by rewrite app_nil_r.
  - destruct (addToGroups gs0 p) as [gs1|] eqn:E1.
    + intros Hr. rewrite (assoc_L _ ps0 [p] r : ps0 ++ p :: r = (ps0 ++ [p]) ++ r).
      eapply IH; [|done]. by eapply addToGroups_groups_of.
    + by rewrite fold_addToGroups_None.
Qed.

End CreateGroupsFacts.

(** X29 (the groups partition the properties).  When [createGroups]
    returns, the groups, one after the other, hold the properties of the
    node in their order; there is at least one group; and no group is empty
    unless the node has no property. *)
Theorem X29_createGroups_partition properties groups :
  KeySpacing.createGroups properties = Some groups ->
  concat groups = properties /\ groups <> [] /\
  (properties <> [] -> Forall (fun g => g <> []) groups).
Proof.
  unfold KeySpacing.createGroups. destruct (Nat.eqb_spec (length properties) 1) as [H1|_].
  - intros [= <-]. simpl. rewrite app_nil_r. split; [done|]. split; [done|].
    intros Hne. by repeat constructor.
  - intros H. apply (fold_addToGroups_groups_of properties [[]] []) in H.
    + destruct H as (? & ? & _ & ?). done.
    + by repeat split.
Qed.

Lemma X29_createGroups_partition_witness :
  concat [[KeySpacing.mkPropertyNode 1 None; KeySpacing.mkPropertyNode 2 None];
          [KeySpacing.mkPropertyNode 5 None]]
  = [KeySpacing.mkPropertyNode 1 None; KeySpacing.mkPropertyNode 2 None;
     KeySpacing.mkPropertyNode 5 None] /\
  [[KeySpacing.mkPropertyNode 1 None; KeySpacing.mkPropertyNode 2 None];
   [KeySpacing.mkPropertyNode 5 None]] <> [] /\
  ([KeySpacing.mkPropertyNode 1 None; KeySpacing.mkPropertyNode 2 None;
    KeySpacing.mkPropertyNode 5 None] <> [] ->
   Forall (fun g => g <> [])
     [[KeySpacing.mkPropertyNode 1 None; KeySpacing.mkPropertyNode 2 None];
      [KeySpacing.mkPropertyNode 5 None]]).
Proof.
  apply (X29_createGroups_partition
           [KeySpacing.mkPropertyNode 1 None; KeySpacing.mkPropertyNode 2 None;
            KeySpacing.mkPropertyNode 5 None]).
  reflexivity.
Defined.

Section GroupAdjacencyFacts.

Import KeySpacing.

Lemma continues_all_snoc g p :
  continues_all (g ++ [p]) <->
  continues_all g /\
  forall prev, KeySpacing.last g = Some prev -> continuesPropertyGroup prev p = Some true.
Proof.
  induction g as [|a [|b r] IH].
  - simpl. split; [|done]. intros _. split; [done|]. intros prev. by rewrite last_stdpp.
  - simpl. split.
    + intros [H _]. split; [done|]. intros prev. rewrite last_stdpp. simpl. by intros [= <-].
    + intros [_ H]. split; [|done]. apply H. by rewrite last_stdpp.
  - change (continues_all ((a :: b :: r) ++ [p]))
      with (continuesPropertyGroup a b = Some true /\ continues_all ((b :: r) ++ [p])).
    change (continues_all (a :: b :: r))
      with (continuesPropertyGroup a b = Some true /\ continues_all (b :: r)).
    rewrite IH, last_cons_cons. tauto.
Qed.

Lemma separated_snoc gs h :
  separated (gs ++ [h]) <->
  separated gs /\
  forall g, KeySpacing.last gs = Some g ->
    forall a b, KeySpacing.last g = Some a -> head h = Some b ->
      continuesPropertyGroup a b = Some false.
Proof.
  induction gs as [|g0 [|g1 r] IH].
  - simpl. split; [|done]. intros _. split; [done|]. intros g. by rewrite last_stdpp.
  - simpl. split.
    + intros [H _]. split; [done|]. intros g. rewrite last_stdpp. simpl. by intros [= <-].
    + intros [_ H]. split; [|done]. apply H. by rewrite last_stdpp.
  - change (separated ((g0 :: g1 :: r) ++ [h]))
      with ((forall a b, KeySpacing.last g0 = Some a -> head g1 = Some b ->
               continuesPropertyGroup a b = Some false)
            /\ separated ((g1 :: r) ++ [h])).
    change (separated (g0 :: g1 :: r))
      with ((forall a b, KeySpacing.last g0 = Some a -> head g1 = Some b ->
               continuesPropertyGroup a b = Some false)
            /\ separated (g1 :: r)).
    rewrite IH, last_cons_cons. tauto.
Qed.

Lemma last_of_snoc {A} (l : list A) x : KeySpacing.last (l ++ [x]) = Some x.
Proof. rewrite last_stdpp. apply last_snoc. Qed.

Lemma addToGroups_adjacent gs ps p gs' :
  groups_of gs ps ->
  Forall continues_all gs -> separated gs ->
  addToGroups gs p = Some gs' ->
  Forall continues_all gs' /\ separated gs'.
Proof.
  intros (Hcat & Hne & Hnil & Hall) Hca Hsep. unfold addToGroups.
  destruct (KeySpacing.last gs) as [g|] eqn:Eg; [|done].
  apply last_snoc_inv in Eg. set (l' := removelast gs) in *.
  rewrite Eg in Hca, Hsep. apply Forall_app in Hca as [Hca' Hg].
  apply (proj1 (Forall_singleton _ _)) in Hg. apply separated_snoc in Hsep as [Hsep' Hb].
  assert ((forall prev, KeySpacing.last g = Some prev ->
             continuesPropertyGroup prev p = Some true) ->
          Forall continues_all (l' ++ [g ++ [p]]) /\ separated (l' ++ [g ++ [p]])) as Hpushed.
  { intros Hprev. split.
    - apply Forall_app. split; [done|]. apply Forall_singleton.
      by apply continues_all_snoc.
    - apply separated_snoc. split; [done|].
      intros g0 Hg0 a b Ha Hh. apply (Hb g0 Hg0 a b Ha).
      destruct g as [|x g]; [|done].
      destruct ps as [|q ps].
      + rewrite (Hnil eq_refl) in Eg. destruct l' as [|? [|? ?]]; simplify_eq;
          by rewrite last_stdpp in Hg0.
      + specialize (Hall ltac:(done)). rewrite Eg in Hall.
        apply Forall_app in Hall as [_ Hall]. by apply (proj1 (Forall_singleton _ _)) in Hall. }
  destruct (KeySpacing.last g) as [prev|] eqn:Ep.
  - destruct (continuesPropertyGroup prev p) as [[|]|] eqn:Ec; [| |done].
    + intros [= <-]. apply Hpushed. by intros ? [= <-].
    + intros [= <-]. rewrite Eg. split.
      * apply Forall_app. split; [by apply Forall_app; split; [|apply Forall_singleton]|].
        by apply Forall_singleton.
      * apply separated_snoc. split; [by apply separated_snoc|].
        intros g0. rewrite last_of_snoc. intros [= <-] a b Ha [= <-]. congruence.
  - intros [= <-]. apply Hpushed. done.
Qed.

Lemma fold_addToGroups_adjacent properties gs0 ps0 gs :
  groups_of gs0 ps0 ->
  Forall continues_all gs0 -> separated gs0 ->
  fold_left (fun groups property => groups ≫= fun gs => addToGroups gs property)
    properties (Some gs0) = Some gs ->
  Forall continues_all gs /\ separated gs.
Proof.
  revert gs0 ps0. induction properties as [|p r IH]; intros gs0 ps0 H0 Hca Hsep; simpl.
  - by intros [= <-].
  - destruct (addToGroups gs0 p) as [gs1|] eqn:E1.
    + intros Hr.
      destruct (addToGroups_adjacent _ _ _ _ H0 Hca Hsep E1) as [? ?].
      eapply (IH gs1 (ps0 ++ [p])); [|done..]. by eapply addToGroups_groups_of.
    + by rewrite fold_addToGroups_None.
Qed.

End GroupAdjacencyFacts.

(** X30 (what separates the groups).  When [createGroups] returns, each
    member of a group continues the member before it, by
    [continuesPropertyGroup], and the first member of each group after the
    first does not continue the last member of the group before it. *)
Theorem X30_createGroups_adjacency properties groups :
  KeySpacing.createGroups properties = Some groups ->
  Forall KeySpacing.continues_all groups /\ KeySpacing.separated groups.
Proof.
  unfold KeySpacing.createGroups. destruct (Nat.eqb_spec (length properties) 1) as [H1|_].
  - intros [= <-]. destruct properties as [|x [|? ?]]; [done| |done].
    split; [|done]. by repeat constructor.
  - intros H. apply (fold_addToGroups_adjacent properties [[]] []) in H; [done| | |done].
    + by repeat split.
    + by repeat constructor.
Qed.

Lemma X30_createGroups_adjacency_witness :
  Forall KeySpacing.continues_all
    [[KeySpacing.mkPropertyNode 1 None; KeySpacing.mkPropertyNode 2 None];
     [KeySpacing.mkPropertyNode 5 None]] /\
  KeySpacing.separated
    [[KeySpacing.mkPropertyNode 1 None; KeySpacing.mkPropertyNode 2 None];
     [KeySpacing.mkPropertyNode 5 None]].
Proof.
  apply (X30_createGroups_adjacency
           [KeySpacing.mkPropertyNode 1 None; KeySpacing.mkPropertyNode 2 None;
            KeySpacing.mkPropertyNode 5 None]).
  reflexivity.
Defined.
